(** * scraper/utils.py: strings and JSON values as one element tree

    A shallow embedding of the tree builders of [scraper/utils.py]:
    [json_to_etree], the [EtreeHTMLParser] callbacks with [html_to_etree],
    and the dispatcher [str_to_etree]; and of its recursive helpers [strip],
    [re_sub] and [dict_update].

    Conventions of the embedding.
    - A Python [str] is a [string]; a character stands for a code point
      below 256.
    - An [ElementTree.Element] that is only built and returned (the JSON
      side) is a value of the inductive type [Element].  The markup parser
      keeps references to elements and mutates them after they were appended
      to a parent, so there the elements live in an object store ([list Obj],
      a reference is an index) and the tree is read back from the store when
      [parse] returns.
    - A raised exception is the [Raise] outcome of a small error monad.
    - [json.loads] and the tokenizer of [html.parser.HTMLParser] are library
      code: they are Section variables. *)

From Stdlib Require Import ZArith String Ascii DecimalString SpecFloat.
From Stdlib Require DecimalFacts DecimalNat DecimalPos.
From stdpp Require Import gmap strings list.

#[local] Set Warnings "-register-all".
Local Open Scope string_scope.
Local Open Scope list_scope.
Local Open Scope nat_scope.

(** ** Python strings *)

(** [str.isspace] of one character, for code points below 256: TAB, LF, VT,
    FF, CR, the separators FS, GS, RS, US, the space, NEL and NBSP. *)
Definition isspace (c : ascii) : bool :=
  let n := nat_of_ascii c in
  (((9 <=? n) && (n <=? 13)) || ((28 <=? n) && (n <=? 32))
   || (n =? 133) || (n =? 160))%nat.

Fixpoint lstrip (s : string) : string :=
  match s with
  | EmptyString => EmptyString
  | String c r => if isspace c then lstrip r else s
  end.

Fixpoint rstrip (s : string) : string :=
  match s with
  | EmptyString => EmptyString
  | String c r =>
      match rstrip r with
      | EmptyString => if isspace c then EmptyString else String c EmptyString
      | r' => String c r'
      end
  end.

(** [s.strip()] *)
Definition strip (s : string) : string := rstrip (lstrip s).

(** [s.startswith(p)] *)
Definition startswith (s p : string) : bool := String.prefix p s.

(** [str(i)] of a Python [int]. *)
Definition str_int (z : Z) : string := NilZero.string_of_int (Z.to_int z).

(** [str(i)] of an index produced by [enumerate]. *)
Definition str_nat (n : nat) : string := NilZero.string_of_uint (Nat.to_uint n).

(** [str(b)] of a Python [bool]. *)
Definition str_bool (b : bool) : string := if b then "True" else "False".

(** ** Decimal numerals

    What a string of decimal digits stands for, to say what [str] of an
    integer is without naming the function that computes it. *)

(** The value of one decimal digit. *)
Definition digit_value (c : ascii) : option Z :=
  let n := nat_of_ascii c in
  if (48 <=? n) && (n <=? 57) then Some (Z.of_nat n - 48)%Z else None.

Fixpoint decimal_acc (s : string) (acc : Z) : option Z :=
  match s with
  | EmptyString => Some acc
  | String c r =>
      match digit_value c with
      | Some k => decimal_acc r (10 * acc + k)%Z
      | None => None
      end
  end.

(** The number a non-empty string of decimal digits stands for. *)
Definition decimal_value (s : string) : option Z :=
  match s with
  | EmptyString => None
  | _ => decimal_acc s 0
  end.

(** A numeral of more than one digit that starts with the digit zero. *)
Definition leading_zero (s : string) : bool :=
  match s with
  | String "0" (String _ _) => true
  | _ => false
  end.

(** The integer a decimal numeral with an optional minus sign stands for. *)
Definition int_value (s : string) : option Z :=
  match s with
  | String "-" r => Z.opp <$> decimal_value r
  | _ => decimal_value s
  end.

(** A numeral as [str] writes it: no leading zero, and a minus sign only in
    front of a numeral other than zero. *)
Definition canonical_int (s : string) : bool :=
  match s with
  | String "-" r => negb (leading_zero r) && negb (String.eqb r "0")
  | _ => negb (leading_zero s)
  end.

(** ** Decoded JSON values

    What [json.loads] returns: [None], [bool], [int], [float], [str], [list]
    and [dict].  A [dict] keeps its insertion order, which the iteration of
    [json_to_etree] follows, so it is a list of entries. *)
Inductive json : Type :=
  | JNull
  | JBool (b : bool)
  | JInt (z : Z)
  | JFloat (f : spec_float)
  | JStr (s : string)
  | JList (items : list json)
  | JDict (entries : list (string * json)).

(** ** Element trees *)

Inductive Element : Type := mkElement {
  tag : string;
  attrib : gmap string string;
  text : option string;
  tail : option string;
  children : list Element
}.

(** [ElementTree.Element(tag)]: no attributes, no text, no tail, no child. *)
Definition new_Element (t : string) (a : gmap string string) : Element :=
  mkElement t a None None [].

(** [element.append(child)] on a value. *)
Definition append (e child : Element) : Element :=
  mkElement (tag e) (attrib e) (text e) (tail e) (children e ++ [child]).

Definition set_text (e : Element) (s : string) : Element :=
  mkElement (tag e) (attrib e) (Some s) (tail e) (children e).

(** All the nodes of a tree, in document order. *)
Fixpoint nodes (e : Element) : list Element :=
  e :: (fix over (cs : list Element) : list Element :=
          match cs with
          | [] => []
          | c :: r => nodes c ++ over r
          end) (children e).

(** The two conditions of a node that the JSON tree invariant speaks of. *)
Definition text_is_set (e : Element) : bool :=
  match text e with Some _ => true | None => false end.

Definition has_children (e : Element) : bool :=
  match children e with [] => false | _ :: _ => true end.

Definition exactly_one (e : Element) : bool :=
  xorb (text_is_set e) (has_children e).

(** ** [json_to_etree] *)

Section JsonToEtree.

(** [str(x)] of a Python [float] (the shortest string that reads back as
    [x]); library code. *)
Variable str_float : spec_float -> string.

Fixpoint json_to_etree (json_obj : json) (t : string) : Element :=
  let element := new_Element t ∅ in
  match json_obj with
  | JList items =>
      (fix loop (items : list json) (i : nat) (e : Element) : Element :=
         match items with
         | [] => e
         | item :: r =>
             loop r (S i)
               (append e (json_to_etree item ("i" +:+ str_nat i)))
         end) items 0 element
  | JDict entries =>
      (fix loop (entries : list (string * json)) (e : Element) : Element :=
         match entries with
         | [] => e
         | (k, v) :: r => loop r (append e (json_to_etree v k))
         end) entries element
  | JNull => element
  | JBool b => set_text element (str_bool b)
  | JInt z => set_text element (str_int z)
  | JFloat f => set_text element (str_float f)
  | JStr s => set_text element s
  end.

(** The two loops of [json_to_etree], named, to state what they do. *)
Definition list_loop : list json -> nat -> Element -> Element :=
  fix loop (items : list json) (i : nat) (e : Element) : Element :=
    match items with
    | [] => e
    | item :: r =>
        loop r (S i) (append e (json_to_etree item ("i" +:+ str_nat i)))
    end.

Definition dict_loop : list (string * json) -> Element -> Element :=
  fix loop (entries : list (string * json)) (e : Element) : Element :=
    match entries with
    | [] => e
    | (k, v) :: r => loop r (append e (json_to_etree v k))
    end.

End JsonToEtree.

(** Which decoded values are scalars other than [None], and which are
    containers with at least one item. *)
Definition is_scalar (v : json) : bool :=
  match v with
  | JBool _ | JInt _ | JFloat _ | JStr _ => true
  | JNull | JList _ | JDict _ => false
  end.

Definition is_nonempty_container (v : json) : bool :=
  match v with
  | JList (_ :: _) | JDict (_ :: _) => true
  | _ => false
  end.

(** The values nested in a decoded value, the value itself first, in the
    order of the document. *)
Fixpoint subvalues (v : json) : list json :=
  v :: match v with
       | JList items =>
           (fix over (l : list json) : list json :=
              match l with
              | [] => []
              | x :: r => subvalues x ++ over r
              end) items
       | JDict entries =>
           (fix over (l : list (string * json)) : list json :=
              match l with
              | [] => []
              | kv :: r => subvalues kv.2 ++ over r
              end) entries
       | _ => []
       end.

(** The number of items of an array or of entries of an object. *)
Definition item_count (v : json) : nat :=
  match v with
  | JList items => length items
  | JDict entries => length entries
  | _ => 0
  end.

(** A node as the image of the value [v]: it is what [json_to_etree] returns
    for [v] under some name, its text is set exactly when [v] is a scalar
    other than [None], and it has one child per item of [v]. *)
Definition image_of (str_float : spec_float -> string) (e : Element) (v : json)
    : Prop :=
  (∃ t, e = json_to_etree str_float v t) ∧
  text_is_set e = is_scalar v ∧
  has_children e = is_nonempty_container v ∧
  length (children e) = item_count v.

(** ** Outcomes: a returned value or a raised exception *)

Inductive exn : Type :=
  | JSONDecodeError    (* json.JSONDecodeError, raised by json.loads *)
  | ResultParseError.  (* scraper.exceptions.ResultParseError *)

Inductive Outcome (A : Type) : Type :=
  | Ret (a : A)
  | Raise (e : exn).
Arguments Ret {A} a.
Arguments Raise {A} e.

#[global] Instance Outcome_ret : MRet Outcome := @Ret.
#[global] Instance Outcome_bind : MBind Outcome := λ A B f m,
  match m with
  | Ret a => f a
  | Raise e => Raise e
  end.

(** ** The object store of the markup parser

    [EtreeHTMLParser] holds the same element under several names at once:
    the open-tag stack, [cur_tag], and the children list of the parent.  An
    element is therefore an object of a store, named by its index, and a
    children list holds references. *)
Abbreviation ref := nat.

Record Obj : Type := mkObj {
  o_tag : string;
  o_attrib : gmap string string;
  o_text : option string;
  o_tail : option string;
  o_children : list ref
}.

Definition o_append (child : ref) (o : Obj) : Obj :=
  mkObj (o_tag o) (o_attrib o) (o_text o) (o_tail o) (o_children o ++ [child]).

Definition o_set_text (s : string) (o : Obj) : Obj :=
  mkObj (o_tag o) (o_attrib o) (Some s) (o_tail o) (o_children o).

Definition o_set_tail (s : string) (o : Obj) : Obj :=
  mkObj (o_tag o) (o_attrib o) (o_text o) (Some s) (o_children o).

(** The tree below a reference, read off the store.  [fuel] bounds the depth;
    [element_at_total] shows that the size of the store is enough in every
    store the parser builds. *)
Fixpoint element_at (fuel : nat) (h : list Obj) (r : ref) : option Element :=
  match fuel with
  | 0 => None
  | S fuel' =>
      o ← h !! r;
      cs ← mapM (element_at fuel' h) (o_children o);
      Some (mkElement (o_tag o) (o_attrib o) (o_text o) (o_tail o) cs)
  end.

(** The element a reference stands for in a store: the tag, attributes, text
    and tail of the object behind the reference, and as children the elements
    its children list refers to, in order. *)
Inductive tree_in (h : list Obj) : ref -> Element -> Prop :=
  | tree_in_node (r : ref) (o : Obj) (cs : list Element) :
      h !! r = Some o ->
      Forall2 (tree_in h) (o_children o) cs ->
      tree_in h r (mkElement (o_tag o) (o_attrib o) (o_text o) (o_tail o) cs).

(** ** [EtreeHTMLParser]

    [tag_stack] is written with the top of the stack (the last item of the
    Python list) at the head. *)
Record EtreeHTMLParser : Type := mkParser {
  store : list Obj;
  tag_stack : list ref;
  cur_tag : option ref;
  after_end : bool
}.

(** [__init__] *)
Definition init : EtreeHTMLParser := mkParser [] [] None false.

(** [{k: v or "" for k, v in attrs}]: a later pair overrides an earlier one
    with the same key. *)
Definition attrs_dict (attrs : list (string * option string))
    : gmap string string :=
  foldl (λ d kv, <[kv.1 := default "" kv.2]> d) ∅ attrs.

Definition handle_starttag (t : string) (attrs : list (string * option string))
    (p : EtreeHTMLParser) : EtreeHTMLParser :=
  let new := length (store p) in
  let h := store p ++ [mkObj t (attrs_dict attrs) None None []] in
  let h :=
    match tag_stack p with
    | top :: _ => alter (o_append new) top h
    | [] => h
    end in
  mkParser h (new :: tag_stack p) (Some new) false.

(** [item.tag == tag] for the item behind a reference. *)
Definition tag_is (h : list Obj) (t : string) (r : ref) : bool :=
  match h !! r with
  | Some o => bool_decide (o_tag o = t)
  | None => false
  end.

(** The [while] loop of [handle_endtag], by recursion on the stack: every
    iteration that does not [break] pops one item. *)
Fixpoint endtag_loop (h : list Obj) (t : string) (stack : list ref)
    (cur : option ref) (ae : bool) : list ref * option ref * bool :=
  match stack with
  | [] => (stack, cur, ae)
  | top :: rest =>
      if existsb (tag_is h t) stack then
        if tag_is h t top then (rest, Some top, true)
        else endtag_loop h t rest (Some top) true
      else (stack, cur, ae)
  end.

Definition handle_endtag (t : string) (p : EtreeHTMLParser) : EtreeHTMLParser :=
  let '(stack, cur, ae) :=
    endtag_loop (store p) t (tag_stack p) (cur_tag p) (after_end p) in
  mkParser (store p) stack cur ae.

Definition handle_data (data : string) (p : EtreeHTMLParser) : EtreeHTMLParser :=
  match cur_tag p with
  | Some c =>
      if after_end p then
        mkParser (alter (o_set_tail (strip data)) c (store p))
          (tag_stack p) (cur_tag p) (after_end p)
      else
        mkParser (alter (o_set_text (strip data)) c (store p))
          (tag_stack p) (cur_tag p) (after_end p)
  | None => p
  end.

(** [error]: [raise ResultParseError]. *)
Definition error (message : string) (p : EtreeHTMLParser)
    : Outcome EtreeHTMLParser :=
  Raise ResultParseError.

(** The callbacks the tokenizer of [HTMLParser] makes.  [handle_startendtag]
    is a [StartTag] followed by an [EndTag]; the callbacks the class does not
    override do nothing and are left out. *)
Inductive Event : Type :=
  | StartTag (t : string) (attrs : list (string * option string))
  | EndTag (t : string)
  | Data (data : string)
  | Error (message : string).

Definition handle (ev : Event) (p : EtreeHTMLParser) : Outcome EtreeHTMLParser :=
  match ev with
  | StartTag t attrs => Ret (handle_starttag t attrs p)
  | EndTag t => Ret (handle_endtag t p)
  | Data data => Ret (handle_data data p)
  | Error message => error message p
  end.

Fixpoint handle_all (evs : list Event) (p : EtreeHTMLParser)
    : Outcome EtreeHTMLParser :=
  match evs with
  | [] => Ret p
  | ev :: evs' => p' ← handle ev p; handle_all evs' p'
  end.

(** [return self.cur_tag], as the tree the caller receives. *)
Definition result (p : EtreeHTMLParser) : option Element :=
  r ← cur_tag p; element_at (length (store p)) (store p) r.

(** [parse] on the callbacks of [feed] and [close]. *)
Definition parse_events (evs : list Event) : Outcome (option Element) :=
  p ← handle_all evs init; Ret (result p).

(** ** [html_to_etree] and [str_to_etree] *)

Section StrToEtree.

Variable str_float : spec_float -> string.

(** [json.loads(s, strict=False)]: the decoded value, or the exception. *)
Variable json_loads : string -> Outcome json.

(** The callbacks that [feed(html)] followed by [close()] makes, in order. *)
Variable tokenize : string -> list Event.

Definition parse (html : string) : Outcome (option Element) :=
  parse_events (tokenize html).

Definition html_to_etree (html_text : string) : Outcome (option Element) :=
  parse html_text.

Definition str_to_etree (s : string) : Outcome (option Element) :=
  let s := strip s in
  if startswith s "{" || startswith s "[" then
    j ← json_loads s; Ret (Some (json_to_etree str_float j "root"))
  else if startswith s "<" then
    html_to_etree s
  else Ret None.

End StrToEtree.

(** ** Well-formed stores

    What every store built by the callbacks satisfies. *)

(** The children of an object were created after it and are in the store;
    the stack and [cur_tag] hold references into the store. *)
Definition store_ok (h : list Obj) : Prop :=
  ∀ r o c, h !! r = Some o → c ∈ o_children o → r < c < length h.

Definition parser_ok (p : EtreeHTMLParser) : Prop :=
  store_ok (store p) ∧
  (∀ r, r ∈ tag_stack p → r < length (store p)) ∧
  (∀ r, cur_tag p = Some r → r < length (store p)).

(** ** Sizes of decoded values *)

(** The number of values in a decoded JSON value: the value itself and the
    values inside it. *)
Fixpoint json_size (v : json) : nat :=
  match v with
  | JList items =>
      S ((fix sum (l : list json) : nat :=
            match l with
            | [] => 0
            | x :: r => json_size x + sum r
            end) items)
  | JDict entries =>
      S ((fix sum (l : list (string * json)) : nat :=
            match l with
            | [] => 0
            | kv :: r => json_size kv.2 + sum r
            end) entries)
  | _ => 1
  end.

(** ** Well-nested markup

    A document whose tags are properly nested: a start tag with its
    attributes, the text right after it, the child elements, the end tag, and
    the text right after the end tag. *)
Inductive Markup : Type :=
  | Node (t : string) (attrs : list (string * option string))
      (txt : option string) (kids : list Markup) (tl : option string).

Definition data_of (d : option string) : list Event :=
  match d with
  | Some s => [Data s]
  | None => []
  end.

(** The callbacks the tokenizer makes on a well-nested document. *)
Fixpoint events_of (m : Markup) : list Event :=
  match m with
  | Node t attrs txt kids tl =>
      StartTag t attrs :: data_of txt ++
      (fix over (ks : list Markup) : list Event :=
         match ks with
         | [] => []
         | k :: r => events_of k ++ over r
         end) kids ++
      EndTag t :: data_of tl
  end.

(** The element tree a well-nested document stands for. *)
Fixpoint tree_of (m : Markup) : Element :=
  match m with
  | Node t attrs txt kids tl =>
      mkElement t (attrs_dict attrs) (strip <$> txt) (strip <$> tl)
        ((fix over (ks : list Markup) : list Element :=
            match ks with
            | [] => []
            | k :: r => tree_of k :: over r
            end) kids)
  end.

(** The number of elements of a document. *)
Fixpoint msize (m : Markup) : nat :=
  match m with
  | Node _ _ _ kids _ =>
      S ((fix sum (ks : list Markup) : nat :=
            match ks with
            | [] => 0
            | k :: r => msize k + sum r
            end) kids)
  end.

(** The references of the children of an element whose first child is
    created at [k], and the objects a document occupies in the store when
    its root is created at [n]: elements are created in document order. *)
Fixpoint child_refs (ks : list Markup) (k : ref) : list ref :=
  match ks with
  | [] => []
  | x :: r => k :: child_refs r (k + msize x)
  end.

Fixpoint alloc (m : Markup) (n : ref) : list Obj :=
  match m with
  | Node t attrs txt kids tl =>
      mkObj t (attrs_dict attrs) (strip <$> txt) (strip <$> tl)
        (child_refs kids (S n))
      :: (fix objs (ks : list Markup) (k : ref) : list Obj :=
            match ks with
            | [] => []
            | x :: r => alloc x k ++ objs r (k + msize x)
            end) kids (S n)
  end.

Definition alloc_kids : list Markup -> ref -> list Obj :=
  fix objs (ks : list Markup) (k : ref) : list Obj :=
    match ks with
    | [] => []
    | x :: r => alloc x k ++ objs r (k + msize x)
    end.

(** The store after [handle_starttag] has appended the new element to the
    element on top of the stack, without the new element. *)
Definition attach (p : EtreeHTMLParser) : list Obj :=
  match tag_stack p with
  | top :: _ => alter (o_append (length (store p))) top (store p)
  | [] => store p
  end.

(** The element on top of the stack is in the store. *)
Definition top_ok (p : EtreeHTMLParser) : Prop :=
  ∀ top, head (tag_stack p) = Some top → top < length (store p).

(** An object as it may be found later in the run of the parser: same tag,
    same attributes, and the children it had, possibly followed by more. *)
Definition obj_grows (o o' : Obj) : Prop :=
  o_tag o' = o_tag o ∧ o_attrib o' = o_attrib o ∧
  o_children o `prefix_of` o_children o'.

(** ** [strip] of utils.py (the name [strip] is taken by [str.strip])

    The argument is any value; the function tells lists, dictionaries and
    strings apart and returns everything else as it is, so decoded JSON
    values cover its cases.  [JNull] is [None]. *)
Definition is_None (v : json) : bool :=
  match v with
  | JNull => true
  | _ => false
  end.

Fixpoint strip_any (obj : json) : json :=
  match obj with
  | JList items =>
      JList (List.filter (λ x, negb (is_None x)) (List.map strip_any items))
  | JDict entries =>
      JDict (List.map (λ kv, (kv.1, strip_any kv.2)) entries)
  | JStr s =>
      let s := strip s in
      if String.eqb s "" then JNull else JStr s
  | _ => obj
  end.

(** What [strip_any] leaves behind: no string value is empty or has
    whitespace at either end, and no list holds [None].  The keys of a
    dictionary are not looked at: [strip_any] keeps them as they are. *)
Fixpoint stripped (v : json) : bool :=
  match v with
  | JStr s => negb (String.eqb s "") && String.eqb (strip s) s
  | JList items =>
      (fix all (l : list json) : bool :=
         match l with
         | [] => true
         | x :: r => negb (is_None x) && stripped x && all r
         end) items
  | JDict entries =>
      (fix all (l : list (string * json)) : bool :=
         match l with
         | [] => true
         | kv :: r => stripped kv.2 && all r
         end) entries
  | _ => true
  end.

(** ** [re_sub] *)

Section ReSub.

(** [re.sub(pattern, repl, s)]; library code. *)
Variable re_sub_str : string -> string -> string -> string.

Fixpoint re_sub (obj : json) (pattern repl : string) : json :=
  match obj with
  | JList items => JList (List.map (λ item, re_sub item pattern repl) items)
  | JDict entries =>
      JDict (List.map (λ kv, (kv.1, re_sub kv.2 pattern repl)) entries)
  | JStr s => JStr (re_sub_str pattern repl s)
  | _ => obj
  end.

End ReSub.

(** The strings a value holds, dictionary keys apart. *)
Fixpoint strings_of (v : json) : list string :=
  match v with
  | JStr s => [s]
  | JList items =>
      (fix over (l : list json) : list string :=
         match l with
         | [] => []
         | x :: r => strings_of x ++ over r
         end) items
  | JDict entries =>
      (fix over (l : list (string * json)) : list string :=
         match l with
         | [] => []
         | kv :: r => strings_of kv.2 ++ over r
         end) entries
  | _ => []
  end.

(** ** [dict_update]

    A dictionary is the list of its entries in insertion order, with no key
    twice.  The function updates [d1] in place and returns it; the model
    gives the value [d1] has at the end, for arguments that share no list or
    dictionary with each other. *)

(** [d.get(k, None)] *)
Definition dict_get (d : list (string * json)) (k : string) : option json :=
  snd <$> List.find (λ kv, String.eqb kv.1 k) d.

(** [d[k] = v]: the new value takes the place of the old one, or the entry
    is added at the end. *)
Fixpoint dict_set (d : list (string * json)) (k : string) (v : json)
    : list (string * json) :=
  match d with
  | [] => [(k, v)]
  | (k', v') :: r =>
      if String.eqb k' k then (k', v) :: r else (k', v') :: dict_set r k v
  end.

Section DictUpdate.

(** [a == b] of two values, or [a is b]; library code. *)
Variable py_eq : json -> json -> bool.

(** [x in v1] *)
Definition contains (v1 : list json) (x : json) : bool :=
  existsb (λ item, py_eq item x) v1.

(** [v1.extend(x for x in v2 if x not in v1)]: the generator runs while the
    list grows, so every test sees the items appended before it. *)
Fixpoint extend_new (v1 v2 : list json) : list json :=
  match v2 with
  | [] => v1
  | x :: r => extend_new (if contains v1 x then v1 else v1 ++ [x]) r
  end.

(** What one round of the loop leaves under the key: [v1] is [d1.get(k)],
    [v2] the value of [d2]. *)
Fixpoint update_value (v1 : option json) (v2 : json) : json :=
  match v2 with
  | JDict e2 =>
      match v1 with
      | Some (JDict e1) =>
          JDict
            ((fix loop (d2 d1 : list (string * json)) : list (string * json) :=
                match d2 with
                | [] => d1
                | (k, x) :: r =>
                    loop r (dict_set d1 k (update_value (dict_get d1 k) x))
                end) e2 e1)
      | _ => v2
      end
  | JList l2 =>
      match v1 with
      | Some (JList l1) => JList (extend_new l1 l2)
      | _ => v2
      end
  | _ => v2
  end.

Definition dict_update (d1 d2 : list (string * json))
    : list (string * json) :=
  (fix loop (d2 d1 : list (string * json)) : list (string * json) :=
     match d2 with
     | [] => d1
     | (k, x) :: r => loop r (dict_set d1 k (update_value (dict_get d1 k) x))
     end) d2 d1.

End DictUpdate.

(** * Properties *)

(** ** Induction on decoded JSON values, through lists and dictionaries *)

Section JsonInd.

Variable P : json -> Prop.
Hypothesis Hnull : P JNull.
Hypothesis Hbool : forall b, P (JBool b).
Hypothesis Hinteger : forall z, P (JInt z).
Hypothesis Hfloat : forall f, P (JFloat f).
Hypothesis Hstr : forall s, P (JStr s).
Hypothesis Hlist : forall items, Forall P items -> P (JList items).
Hypothesis Hdict :
  forall entries, Forall (fun kv => P kv.2) entries -> P (JDict entries).

Fixpoint json_nested_ind (v : json) : P v :=
  match v with
  | JNull => Hnull
  | JBool b => Hbool b
  | JInt z => Hinteger z
  | JFloat f => Hfloat f
  | JStr s => Hstr s
  | JList items =>
      Hlist items
        ((fix all (l : list json) : Forall P l :=
            match l with
            | [] => @List.Forall_nil _ P
            | x :: r => @List.Forall_cons _ P x r (json_nested_ind x) (all r)
            end) items)
  | JDict entries =>
      Hdict entries
        ((fix all (l : list (string * json)) : Forall (fun kv => P kv.2) l :=
            match l with
            | [] => @List.Forall_nil _ _
            | kv :: r =>
                @List.Forall_cons _ (fun kv => P kv.2) kv r
                  (json_nested_ind kv.2) (all r)
            end) entries)
  end.

End JsonInd.

(** ** Decimal numerals: what [str] of an integer is *)

Lemma decimal_acc_nat d acc :
  decimal_acc (NilEmpty.string_of_uint d) (Z.of_nat acc) =
  Some (Z.of_nat (Nat.of_uint_acc d acc)).
Proof.
  revert acc.
  induction d as [|d IH|d IH|d IH|d IH|d IH|d IH|d IH|d IH|d IH|d IH];
    intros acc; [done|..];
    cbn [NilEmpty.string_of_uint decimal_acc Nat.of_uint_acc];
    change (digit_value "0") with (Some 0%Z);
    change (digit_value "1") with (Some 1%Z);
    change (digit_value "2") with (Some 2%Z);
    change (digit_value "3") with (Some 3%Z);
    change (digit_value "4") with (Some 4%Z);
    change (digit_value "5") with (Some 5%Z);
    change (digit_value "6") with (Some 6%Z);
    change (digit_value "7") with (Some 7%Z);
    change (digit_value "8") with (Some 8%Z);
    change (digit_value "9") with (Some 9%Z);
    cbv iota; rewrite <- IH; f_equal; rewrite Nat.tail_mul_spec; lia.
Qed.

Lemma decimal_acc_pos d acc :
  decimal_acc (NilEmpty.string_of_uint d) (Z.pos acc) =
  Some (Z.pos (Pos.of_uint_acc d acc)).
Proof.
  revert acc.
  induction d as [|d IH|d IH|d IH|d IH|d IH|d IH|d IH|d IH|d IH|d IH];
    intros acc; [done|..];
    cbn [NilEmpty.string_of_uint decimal_acc Pos.of_uint_acc];
    change (digit_value "0") with (Some 0%Z);
    change (digit_value "1") with (Some 1%Z);
    change (digit_value "2") with (Some 2%Z);
    change (digit_value "3") with (Some 3%Z);
    change (digit_value "4") with (Some 4%Z);
    change (digit_value "5") with (Some 5%Z);
    change (digit_value "6") with (Some 6%Z);
    change (digit_value "7") with (Some 7%Z);
    change (digit_value "8") with (Some 8%Z);
    change (digit_value "9") with (Some 9%Z);
    cbv iota; rewrite <- IH; f_equal; lia.
Qed.

Lemma decimal_acc_uint d :
  decimal_acc (NilEmpty.string_of_uint d) 0 = Some (Z.of_N (Pos.of_uint d)).
Proof.
  induction d as [|d IH|d IH|d IH|d IH|d IH|d IH|d IH|d IH|d IH|d IH];
    [done | exact IH | ..];
    cbn [NilEmpty.string_of_uint decimal_acc Pos.of_uint];
    change (digit_value "1") with (Some 1%Z);
    change (digit_value "2") with (Some 2%Z);
    change (digit_value "3") with (Some 3%Z);
    change (digit_value "4") with (Some 4%Z);
    change (digit_value "5") with (Some 5%Z);
    change (digit_value "6") with (Some 6%Z);
    change (digit_value "7") with (Some 7%Z);
    change (digit_value "8") with (Some 8%Z);
    change (digit_value "9") with (Some 9%Z);
    cbv iota; apply decimal_acc_pos.
Qed.

Lemma decimal_value_nonnil d :
  d ≠ Decimal.Nil →
  decimal_value (NilEmpty.string_of_uint d) =
  decimal_acc (NilEmpty.string_of_uint d) 0.
Proof. by destruct d. Qed.

(** A numeral in normal form starts with the digit zero only when it is the
    numeral zero. *)
Lemma unorm_fixed_D0 d :
  Decimal.unorm (Decimal.D0 d) = Decimal.D0 d → d = Decimal.Nil.
Proof.
  rewrite DecimalFacts.unorm_D0. unfold Decimal.unorm.
  destruct (Decimal.nzhead d) eqn:Hz; intros H; try discriminate.
  - by injection H.
  - by apply DecimalFacts.nzhead_nonzero in Hz.
Qed.

Lemma leading_zero_uint d :
  Decimal.unorm d = d → leading_zero (NilEmpty.string_of_uint d) = false.
Proof.
  intros Hd. destruct d as [|d| | | | | | | | |]; try done.
  by rewrite (unorm_fixed_D0 d Hd).
Qed.

Lemma nat_to_uint_normal n : Decimal.unorm (Nat.to_uint n) = Nat.to_uint n.
Proof.
  pose proof (DecimalNat.Unsigned.to_of (Nat.to_uint n)) as H.
  by rewrite DecimalNat.Unsigned.of_to in H.
Qed.

Lemma nat_to_uint_nonnil n : Nat.to_uint n ≠ Decimal.Nil.
Proof. intros H. pose proof (nat_to_uint_normal n) as Hn. by rewrite H in Hn. Qed.

Lemma str_nat_unfold n : str_nat n = NilEmpty.string_of_uint (Nat.to_uint n).
Proof.
  unfold str_nat, NilZero.string_of_uint.
  pose proof (nat_to_uint_nonnil n). by destruct (Nat.to_uint n).
Qed.

(** [str(i)] of an index is the decimal numeral of [i]: it reads back as
    [i], and has no leading zero. *)
Lemma str_nat_value n : decimal_value (str_nat n) = Some (Z.of_nat n).
Proof.
  rewrite str_nat_unfold, decimal_value_nonnil by apply nat_to_uint_nonnil.
  change 0%Z with (Z.of_nat 0). rewrite decimal_acc_nat.
  change (Nat.of_uint_acc (Nat.to_uint n) 0) with (Nat.of_uint (Nat.to_uint n)).
  by rewrite DecimalNat.Unsigned.of_to.
Qed.

Lemma str_nat_no_leading_zero n : leading_zero (str_nat n) = false.
Proof.
  rewrite str_nat_unfold. apply leading_zero_uint, nat_to_uint_normal.
Qed.

Lemma pos_to_uint_normal p : Decimal.unorm (Pos.to_uint p) = Pos.to_uint p.
Proof.
  pose proof (DecimalPos.Unsigned.to_of (Pos.to_uint p)) as H.
  by rewrite DecimalPos.Unsigned.of_to in H.
Qed.

Lemma str_pos_value p :
  decimal_value (NilEmpty.string_of_uint (Pos.to_uint p)) = Some (Z.pos p).
Proof.
  rewrite decimal_value_nonnil by apply DecimalPos.Unsigned.to_uint_nonnil.
  by rewrite decimal_acc_uint, DecimalPos.Unsigned.of_to.
Qed.

Lemma str_pos_head p :
  ∃ c r, NilEmpty.string_of_uint (Pos.to_uint p) = String c r ∧
         c ≠ "-"%char ∧ String c r ≠ "0".
Proof.
  pose proof (DecimalPos.Unsigned.to_uint_nonnil p) as Hn.
  pose proof (DecimalPos.Unsigned.to_uint_nonzero p) as Hz.
  pose proof (pos_to_uint_normal p) as Hu.
  destruct (Pos.to_uint p) as [|d| | | | | | | | |]; try done;
    try (eexists _, _; split; [reflexivity | split; [discriminate|]];
         simpl; congruence).
  exfalso. apply Hz. by rewrite (unorm_fixed_D0 d Hu).
Qed.

Lemma str_int_unfold z :
  str_int z =
  match z with
  | Z0 => "0"
  | Zpos p => NilEmpty.string_of_uint (Pos.to_uint p)
  | Zneg p => String "-" (NilEmpty.string_of_uint (Pos.to_uint p))
  end.
Proof.
  destruct z as [|p|p]; [done|..]; unfold str_int; simpl;
    unfold NilZero.string_of_uint;
    pose proof (DecimalPos.Unsigned.to_uint_nonnil p);
    by destruct (Pos.to_uint p).
Qed.

(** [str(z)] of an [int] is the decimal numeral of [z]: it reads back as
    [z], has no leading zero, and a minus sign exactly when [z] is
    negative. *)
Lemma str_int_value z : int_value (str_int z) = Some z.
Proof.
  rewrite str_int_unfold. destruct z as [|p|p]; [done|..].
  - destruct (str_pos_head p) as (c & r & Hs & Hc & _).
    pose proof (str_pos_value p) as Hv. rewrite Hs in Hv |- *.
    unfold int_value. rewrite <- Hv.
    destruct c as [[] [] [] [] [] [] [] []]; try done.
  - unfold int_value. by rewrite str_pos_value.
Qed.

Lemma str_int_canonical z : canonical_int (str_int z) = true.
Proof.
  rewrite str_int_unfold. destruct z as [|p|p]; [done|..].
  - destruct (str_pos_head p) as (c & r & Hs & Hc & _).
    pose proof (leading_zero_uint _ (pos_to_uint_normal p)) as Hl.
    rewrite Hs in Hl |- *. unfold canonical_int. rewrite Hl.
    destruct c as [[] [] [] [] [] [] [] []]; try done.
  - unfold canonical_int.
    rewrite (leading_zero_uint _ (pos_to_uint_normal p)). simpl.
    destruct (str_pos_head p) as (c & r & Hs & _ & H0).
    apply negb_true_iff, String.eqb_neq. by rewrite Hs.
Qed.

(** ** [json_to_etree] *)

Section JsonProps.

Variable str_float : spec_float -> string.
Local Abbreviation j2e := (json_to_etree str_float).

Lemma json_to_etree_list items t :
  j2e (JList items) t = list_loop str_float items 0 (new_Element t ∅).
Proof. reflexivity. Qed.

Lemma json_to_etree_dict entries t :
  j2e (JDict entries) t = dict_loop str_float entries (new_Element t ∅).
Proof. reflexivity. Qed.

Lemma list_loop_spec items i e :
  list_loop str_float items i e =
  mkElement (tag e) (attrib e) (text e) (tail e)
    (children e ++ imap (fun k v => j2e v ("i" +:+ str_nat (i + k))) items).
Proof.
  revert i e. induction items as [|item r IH]; intros i e.
  - destruct e; simpl. by rewrite app_nil_r.
  - change (list_loop str_float (item :: r) i e)
      with (list_loop str_float r (S i)
              (append e (j2e item ("i" +:+ str_nat i)))).
    rewrite IH. simpl. rewrite <- app_assoc. simpl.
    rewrite Nat.add_0_r. do 3 f_equal.
    apply imap_ext. intros k v _. simpl. do 3 f_equal. lia.
Qed.

Lemma dict_loop_spec entries e :
  dict_loop str_float entries e =
  mkElement (tag e) (attrib e) (text e) (tail e)
    (children e ++ ((fun kv => j2e kv.2 kv.1) <$> entries)).
Proof.
  revert e. induction entries as [|[k v] r IH]; intros e.
  - destruct e; simpl. by rewrite app_nil_r.
  - change (dict_loop str_float ((k, v) :: r) e)
      with (dict_loop str_float r (append e (j2e v k))).
    rewrite IH. simpl. by rewrite <- app_assoc.
Qed.

Lemma json_list_tree items t :
  j2e (JList items) t =
  mkElement t ∅ None None (imap (fun k v => j2e v ("i" +:+ str_nat k)) items).
Proof. rewrite json_to_etree_list, list_loop_spec. reflexivity. Qed.

Lemma json_dict_tree entries t :
  j2e (JDict entries) t =
  mkElement t ∅ None None ((fun kv => j2e kv.2 kv.1) <$> entries).
Proof. rewrite json_to_etree_dict, dict_loop_spec. reflexivity. Qed.

Lemma json_to_etree_tag v t : tag (j2e v t) = t.
Proof.
  destruct v; try reflexivity.
  - by rewrite json_list_tree.
  - by rewrite json_dict_tree.
Qed.

Lemma json_root_shape v t :
  text_is_set (j2e v t) = is_scalar v ∧
  has_children (j2e v t) = is_nonempty_container v.
Proof.
  destruct v as [| | | | |items|entries]; try (split; reflexivity).
  - rewrite json_list_tree. by destruct items.
  - rewrite json_dict_tree. by destruct entries.
Qed.

Lemma elem_of_nodes e' e :
  e' ∈ nodes e ↔ e' = e ∨ ∃ c, c ∈ children e ∧ e' ∈ nodes c.
Proof.
  destruct e as [t a x tl cs]. simpl. rewrite elem_of_cons.
  apply or_iff_compat_l.
  induction cs as [|c r IH].
  - split; [by intros ?%elem_of_nil | by intros (c & ?%elem_of_nil & _)].
  - rewrite elem_of_app, IH. split.
    + intros [H | (c' & Hc' & H)].
      * exists c. split; [by left | done].
      * exists c'. split; [by right | done].
    + intros (c' & [-> | Hc']%elem_of_cons & H); [by left |].
      right. by exists c'.
Qed.

(** Every node of a JSON tree is itself the image of a decoded value. *)
Lemma json_nodes_are_images v :
  ∀ t e, e ∈ nodes (j2e v t) → ∃ v' t', e = j2e v' t'.
Proof.
  induction v as [| b | z | f | s | items IH | entries IH]
    using json_nested_ind; intros t e He.
  1-5: apply elem_of_nodes in He as [-> | (c & Hc & _)];
    [by eexists _, _ | by apply elem_of_nil in Hc].
  - rewrite json_list_tree in He.
    apply elem_of_nodes in He as [-> | (c & Hc & He)].
    + exists (JList items), t. by rewrite json_list_tree.
    + simpl in Hc. apply elem_of_lookup_imap in Hc as (i & v & -> & Hv).
      rewrite Forall_lookup in IH. by eapply IH.
  - rewrite json_dict_tree in He.
    apply elem_of_nodes in He as [-> | (c & Hc & He)].
    + exists (JDict entries), t. by rewrite json_dict_tree.
    + simpl in Hc. apply list_elem_of_fmap in Hc as ([k v] & -> & Hkv).
      rewrite Forall_forall in IH. by eapply (IH (k, v)).
Qed.

(** C2.  A decoded array [[v0, ..., vn]] mapped with root name [r] gives a
    node named [r] with one child per item, in array order; the child at
    index [i] is the mapping of [v_i], and its name is the letter [i]
    followed by the decimal numeral of [i] (the digits read back as [i] and
    have no leading zero): the names are ["i0"], ["i1"], ..., ["i9"],
    ["i10"], ["i11"], ... *)
Theorem json_to_etree_array items r :
  let e := j2e (JList items) r in
  tag e = r ∧
  length (children e) = length items ∧
  tag <$> children e = (λ i, "i" +:+ str_nat i) <$> seq 0 (length items) ∧
  (∀ i, children e !! i = (λ v, j2e v ("i" +:+ str_nat i)) <$> items !! i) ∧
  (∀ i c, children e !! i = Some c →
     ∃ d, tag c = String "i" d ∧
          decimal_value d = Some (Z.of_nat i) ∧ leading_zero d = false) ∧
  tag <$> children (j2e (JList (replicate 12 JNull)) r) =
    ["i0"; "i1"; "i2"; "i3"; "i4"; "i5"; "i6"; "i7"; "i8"; "i9"; "i10"; "i11"].
Proof.
  cbv zeta. rewrite json_list_tree. simpl.
  split; [done |]. split; [apply length_imap |]. split; [|split; [|split]].
  - apply list_eq. intros i.
    rewrite !list_lookup_fmap, list_lookup_imap.
    destruct (items !! i) as [v|] eqn:Hi; simpl.
    + rewrite lookup_seq_lt by (by eapply lookup_lt_Some).
      simpl. by rewrite json_to_etree_tag.
    + rewrite lookup_seq_ge by (by apply lookup_ge_None). done.
  - intros i. apply list_lookup_imap.
  - intros i c. rewrite list_lookup_imap.
    destruct (items !! i) as [v|]; [|done]. intros [= <-].
    exists (str_nat i). rewrite json_to_etree_tag.
    split; [done|]. split; [apply str_nat_value | apply str_nat_no_leading_zero].
  - reflexivity.
Qed.

(** C9.  A string, number or boolean mapped with name [n] gives a leaf
    named [n], with no children, whose text is [str] of the value: the
    string itself; for an [int] its decimal numeral (the text reads back as
    the integer and is canonical: ["0"], ["42"], ["-7"], ["1000"]); for a
    [float] what the library's [str] gives; ["True"] and ["False"] for the
    booleans.  [None] (JSON null) gives a node named [n] with no text and no
    children. *)
Theorem json_to_etree_scalar n :
  (∀ s, j2e (JStr s) n = mkElement n ∅ (Some s) None []) ∧
  (∀ z, ∃ d, j2e (JInt z) n = mkElement n ∅ (Some d) None [] ∧
             int_value d = Some z ∧ canonical_int d = true) ∧
  (∀ f, j2e (JFloat f) n = mkElement n ∅ (Some (str_float f)) None []) ∧
  j2e (JBool true) n = mkElement n ∅ (Some "True") None [] ∧
  j2e (JBool false) n = mkElement n ∅ (Some "False") None [] ∧
  j2e JNull n = mkElement n ∅ None None [] ∧
  j2e (JInt 0) n = mkElement n ∅ (Some "0") None [] ∧
  j2e (JInt 42) n = mkElement n ∅ (Some "42") None [] ∧
  j2e (JInt (-7)) n = mkElement n ∅ (Some "-7") None [] ∧
  j2e (JInt 1000) n = mkElement n ∅ (Some "1000") None [].
Proof.
  split; [done|]. split; [|by repeat split].
  intros z. exists (str_int z).
  split; [done|]. split; [apply str_int_value | apply str_int_canonical].
Qed.

Lemma json_root_image v t : image_of str_float (j2e v t) v.
Proof.
  split; [by eexists|]. destruct (json_root_shape v t) as [-> ->].
  split; [done|]. split; [done|].
  destruct v as [| | | | |items|entries]; try done.
  - rewrite json_list_tree. simpl. apply length_imap.
  - rewrite json_dict_tree. simpl. apply length_fmap.
Qed.

(** The nodes of a JSON tree are the images of the values nested in the
    input, one node per value, in the same order. *)
Lemma json_nodes_subvalues v :
  ∀ t, Forall2 (image_of str_float) (nodes (j2e v t)) (subvalues v).
Proof.
  induction v as [| b | z | f | s | items IH | entries IH]
    using json_nested_ind; intros t.
  - exact (List.Forall2_cons _ _ (json_root_image JNull t)
             (List.Forall2_nil _)).
  - exact (List.Forall2_cons _ _ (json_root_image (JBool b) t)
             (List.Forall2_nil _)).
  - exact (List.Forall2_cons _ _ (json_root_image (JInt z) t)
             (List.Forall2_nil _)).
  - exact (List.Forall2_cons _ _ (json_root_image (JFloat f) t)
             (List.Forall2_nil _)).
  - exact (List.Forall2_cons _ _ (json_root_image (JStr s) t)
             (List.Forall2_nil _)).
  - pose proof (json_root_image (JList items) t) as Hroot.
    rewrite json_list_tree in Hroot |- *.
    cbn [nodes subvalues children]. constructor; [done|]. clear Hroot.
    enough (H : ∀ g : nat → string,
              Forall2 (image_of str_float)
                ((fix over (cs : list Element) : list Element :=
                    match cs with
                    | [] => []
                    | c :: r => nodes c ++ over r
                    end) (imap (λ k v, j2e v (g k)) items))
                ((fix over (l : list json) : list json :=
                    match l with
                    | [] => []
                    | x :: r => subvalues x ++ over r
                    end) items))
      by apply (H (λ k, "i" +:+ str_nat k)).
    induction IH as [|x l Hx _ IHl]; intros g; [constructor|].
    cbn [imap]. apply Forall2_app; [apply Hx | apply (IHl (g ∘ S))].
  - pose proof (json_root_image (JDict entries) t) as Hroot.
    rewrite json_dict_tree in Hroot |- *.
    cbn [nodes subvalues children]. constructor; [done|]. clear Hroot.
    induction IH as [|[k x] l Hx _ IHl]; [constructor|].
    cbn [fmap list_fmap]. apply Forall2_app; [apply Hx | apply IHl].
Qed.

(** C5, as the code has it.  The nodes of a JSON tree are the images of the
    values nested in the input, one node per value, in document order.  The
    text of a node is set exactly when its value is a scalar other than
    null, and it has children (one per item) exactly when its value is an
    array or object with at least one item.  So no node has both text and
    children, the nodes of non-null scalars are leaves with text, the nodes
    of non-empty containers are parents without text, and the nodes of null,
    of the empty array and of the empty object have neither. *)
Theorem json_tree_text_or_children v t :
  Forall2 (image_of str_float) (nodes (j2e v t)) (subvalues v) ∧
  (text_is_set (j2e v t) = is_scalar v ∧
   has_children (j2e v t) = is_nonempty_container v) ∧
  (∀ e, e ∈ nodes (j2e v t) →
     text_is_set e && has_children e = false ∧
     ∃ v', v' ∈ subvalues v ∧
       text_is_set e = is_scalar v' ∧
       has_children e = is_nonempty_container v').
Proof.
  split; [apply json_nodes_subvalues|]. split; [apply json_root_shape|].
  intros e He. apply list_elem_of_lookup in He as [i Hi].
  destruct (Forall2_lookup_l _ _ _ _ _ (json_nodes_subvalues v t) Hi)
    as (v' & Hv' & _ & Htext & Hkids & _).
  split.
  - rewrite Htext, Hkids. by destruct v' as [| | | | |[]|[]].
  - exists v'. split; [by eapply list_elem_of_lookup_2 | done].
Qed.

End JsonProps.

(** The children of the tree of [["x", null, [5]]]: their names, and the
    third child. *)
Lemma json_to_etree_array_witness :
  tag <$> children
    (json_to_etree (λ _, "") (JList [JStr "x"; JNull; JList [JInt 5]]) "r") =
    ["i0"; "i1"; "i2"] ∧
  children
    (json_to_etree (λ _, "") (JList [JStr "x"; JNull; JList [JInt 5]]) "r")
    !! 2 = Some (mkElement "i2" ∅ None None [mkElement "i0" ∅ (Some "5") None []]).
Proof.
  split.
  - exact (proj1 (proj2 (proj2 (json_to_etree_array (λ _, "")
             [JStr "x"; JNull; JList [JInt 5]] "r")))).
  - exact (proj1 (proj2 (proj2 (proj2 (json_to_etree_array (λ _, "")
             [JStr "x"; JNull; JList [JInt 5]] "r")))) 2).
Defined.

Lemma json_to_etree_scalar_witness :
  json_to_etree (λ _, "") (JInt 42) "k" = mkElement "k" ∅ (Some "42") None [] ∧
  json_to_etree (λ _, "") (JBool true) "k" =
    mkElement "k" ∅ (Some "True") None [] ∧
  json_to_etree (λ _, "") (JStr "a b") "k" =
    mkElement "k" ∅ (Some "a b") None [].
Proof.
  split; [|split].
  - exact (proj1 (proj2 (proj2 (proj2 (proj2 (proj2 (proj2 (proj2
             (json_to_etree_scalar (λ _, "") "k"))))))))).
  - exact (proj1 (proj2 (proj2 (proj2 (json_to_etree_scalar (λ _, "") "k"))))).
  - exact (proj1 (json_to_etree_scalar (λ _, "") "k") "a b").
Defined.

Example str_nat_decimal :
  (λ i, "i" +:+ str_nat i) <$> seq 0 12 =
  ["i0"; "i1"; "i2"; "i3"; "i4"; "i5"; "i6"; "i7"; "i8"; "i9"; "i10"; "i11"].
Proof. reflexivity. Qed.

Example str_int_decimal :
  str_int 0 = "0" ∧ str_int 42 = "42" ∧ str_int (-7) = "-7".
Proof. repeat split. Qed.

(** C5, as stated, fails: mapping null, the empty array or the empty object
    gives a node with no text and no children, also below the root. *)
Lemma json_null_neither_text_nor_children :
  let j2e := json_to_etree (fun _ => "") in
  exactly_one (j2e JNull "root") = false ∧
  exactly_one (j2e (JList []) "root") = false ∧
  exactly_one (j2e (JDict []) "root") = false ∧
  nodes (j2e (JList [JNull]) "root") =
    [mkElement "root" ∅ None None [mkElement "i0" ∅ None None []];
     mkElement "i0" ∅ None None []] ∧
  exactly_one (mkElement "i0" ∅ None None []) = false.
Proof. repeat split. Qed.

Lemma json_tree_text_or_children_witness :
  let e := mkElement "k" ∅ (Some "True") None [] in
  text_is_set e && has_children e = false ∧
  ∃ v', v' ∈ subvalues (JDict [("k", JBool true); ("e", JList [])]) ∧
    text_is_set e = is_scalar v' ∧
    has_children e = is_nonempty_container v'.
Proof.
  apply (proj2 (proj2 (json_tree_text_or_children (fun _ => "")
           (JDict [("k", JBool true); ("e", JList [])]) "root"))).
  vm_compute. right. left.
Defined.

(** ** The store the parser builds *)

Lemma init_ok : parser_ok init.
Proof.
  split; [|split].
  - intros r o c Hr. simpl in Hr. by rewrite lookup_nil in Hr.
  - intros r Hr. by apply elem_of_nil in Hr.
  - intros r Hr. discriminate.
Qed.

Lemma handle_starttag_ok t attrs p :
  parser_ok p → parser_ok (handle_starttag t attrs p).
Proof.
  intros (Hs & Hst & Hc). unfold handle_starttag.
  set (new := length (store p)).
  set (o0 := mkObj t (attrs_dict attrs) None None []).
  assert (Hh1 : store_ok (store p ++ [o0])).
  { intros r o c Hr Hin. rewrite length_app. simpl.
    destruct (decide (r < length (store p))) as [Hlt|Hge].
    - rewrite lookup_app_l in Hr by done.
      specialize (Hs r o c Hr Hin). lia.
    - rewrite lookup_app_r in Hr by lia.
      destruct (r - length (store p)) as [|k]; simpl in Hr.
      + injection Hr as <-. by apply elem_of_nil in Hin.
      + by rewrite lookup_nil in Hr. }
  split; [|split]; simpl.
  - destruct (tag_stack p) as [|top rest] eqn:Hstack; [done|].
    intros r o c Hr Hin. rewrite length_alter.
    rewrite list_lookup_alter in Hr.
    case_decide as Heq; [subst r | by eapply Hh1].
    destruct ((store p ++ [o0]) !! top) as [o'|] eqn:Ho'; simplify_eq/=.
    apply elem_of_app in Hin as [Hin | ->%list_elem_of_singleton].
    + by eapply Hh1.
    + rewrite length_app. simpl. fold new.
      assert (top < new) by (apply Hst; left). lia.
  - intros r [-> | Hr]%elem_of_cons.
    + destruct (tag_stack p); rewrite ?length_alter, length_app; simpl;
        fold new; lia.
    + specialize (Hst r Hr).
      destruct (tag_stack p); rewrite ?length_alter, length_app; simpl; lia.
  - intros r [= <-].
    destruct (tag_stack p); rewrite ?length_alter, length_app; simpl;
      fold new; lia.
Qed.

Lemma endtag_loop_refs h t stack cur ae :
  let '(stack', cur', _) := endtag_loop h t stack cur ae in
  stack' `suffix_of` stack ∧ (cur' = cur ∨ ∃ r, r ∈ stack ∧ cur' = Some r).
Proof.
  revert cur ae. induction stack as [|top rest IH]; intros cur ae; simpl.
  - split; [done | by left].
  - destruct (tag_is h t top || existsb (tag_is h t) rest); [|split; [done | by left]].
    destruct (tag_is h t top).
    + split; [by apply suffix_cons_r | right; exists top; split; [left | done]].
    + specialize (IH (Some top) true).
      destruct (endtag_loop h t rest (Some top) true) as [[s' c'] a'].
      destruct IH as [Hsuf Hcur]. split; [by apply suffix_cons_r |].
      right. destruct Hcur as [-> | (r & Hr & ->)].
      * exists top. split; [left | done].
      * exists r. split; [by right | done].
Qed.

Lemma handle_endtag_ok t p : parser_ok p → parser_ok (handle_endtag t p).
Proof.
  intros (Hs & Hst & Hc). unfold handle_endtag.
  pose proof (endtag_loop_refs (store p) t (tag_stack p) (cur_tag p)
                (after_end p)) as H.
  destruct (endtag_loop (store p) t (tag_stack p) (cur_tag p) (after_end p))
    as [[s' c'] a'].
  destruct H as [Hsuf Hcur]. split; [|split]; simpl; [done | |].
  - intros r Hr. apply Hst. destruct Hsuf as [k ->].
    apply elem_of_app. by right.
  - intros r ->. destruct Hcur as [Heq | (r' & Hr' & [= <-])]; [by apply Hc |].
    by apply Hst.
Qed.

Lemma alter_store_ok f c h :
  (∀ o, o_children (f o) = o_children o) → store_ok h → store_ok (alter f c h).
Proof.
  intros Hf Hs r o k Hr Hin. rewrite length_alter.
  rewrite list_lookup_alter in Hr.
  case_decide as Heq; [subst r | by eapply Hs].
  destruct (h !! c) as [o'|] eqn:Ho'; simplify_eq/=.
  rewrite Hf in Hin. by eapply Hs.
Qed.

Lemma handle_data_ok data p : parser_ok p → parser_ok (handle_data data p).
Proof.
  intros (Hs & Hst & Hc). unfold handle_data.
  destruct (cur_tag p) as [c|] eqn:Hcur; [|by rewrite <- Hcur in Hc].
  destruct (after_end p); (split; [|split]); simpl;
    rewrite ?length_alter; try done; by apply alter_store_ok.
Qed.

Lemma handle_ok ev p p' : parser_ok p → handle ev p = Ret p' → parser_ok p'.
Proof.
  intros Hp. destruct ev; simpl; intros [= <-].
  - by apply handle_starttag_ok.
  - by apply handle_endtag_ok.
  - by apply handle_data_ok.
Qed.

Lemma handle_all_ok evs p p' :
  parser_ok p → handle_all evs p = Ret p' → parser_ok p'.
Proof.
  revert p. induction evs as [|ev evs IH]; intros p Hp; simpl.
  - by intros [= <-].
  - destruct (handle ev p) as [p1|e] eqn:Hev; simpl; [|done].
    apply IH. by eapply handle_ok.
Qed.

(** Reading a tree off a well-formed store never runs out of fuel. *)
Lemma element_at_total h :
  store_ok h →
  ∀ (fuel : nat) (r : ref),
    r < length h → length h - r ≤ fuel → is_Some (element_at fuel h r).
Proof.
  intros Hs. induction fuel as [|fuel IH]; intros r Hr Hfuel; [lia|].
  simpl. destruct (lookup_lt_is_Some_2 h r Hr) as [o Ho]. rewrite Ho. simpl.
  assert (Hcs : is_Some (mapM (element_at fuel h) (o_children o))).
  { apply mapM_is_Some, Forall_forall. intros c Hc. simpl.
    destruct (Hs r o c Ho Hc). apply IH; lia. }
  destruct Hcs as [cs ->]. by eexists.
Qed.

Lemma result_total p :
  parser_ok p → is_Some (cur_tag p) → is_Some (result p).
Proof.
  intros (Hs & _ & Hc) [r Hr]. unfold result. rewrite Hr. simpl.
  apply element_at_total; [done | by apply Hc | lia].
Qed.

(** ** [handle_endtag] *)

Lemma existsb_tag_is_false h t stack :
  (∀ r o, r ∈ stack → h !! r = Some o → o_tag o ≠ t) →
  existsb (tag_is h t) stack = false.
Proof.
  intros H. induction stack as [|top rest IH]; [done|]. simpl.
  rewrite IH by (intros r o Hr; apply H; by right).
  rewrite orb_false_r. unfold tag_is.
  destruct (h !! top) as [o|] eqn:Ho; [|done].
  apply bool_decide_eq_false. eapply H; [left | done].
Qed.

Lemma endtag_loop_unmatched h t stack cur ae :
  existsb (tag_is h t) stack = false →
  endtag_loop h t stack cur ae = (stack, cur, ae).
Proof. destruct stack; [done|]. simpl. by intros ->. Qed.

(** Closing a tag pops every item above the topmost item of that name, and
    that item: the items above it are closed with it. *)
Lemma endtag_loop_matched h t above r rest cur ae :
  Forall (λ x, tag_is h t x = false) above →
  tag_is h t r = true →
  endtag_loop h t (above ++ r :: rest) cur ae = (rest, Some r, true).
Proof.
  intros Habove Hr. revert cur ae.
  induction Habove as [|x above Hx _ IH]; intros cur ae; simpl.
  - by rewrite Hr.
  - rewrite Hx. simpl. rewrite IH.
    rewrite existsb_app. simpl. rewrite Hr. simpl.
    by rewrite orb_true_r.
Qed.

Lemma handle_endtag_matched t p above r rest :
  tag_stack p = above ++ r :: rest →
  Forall (λ x, tag_is (store p) t x = false) above →
  tag_is (store p) t r = true →
  handle_endtag t p = mkParser (store p) rest (Some r) true.
Proof.
  intros Hst Habove Hr. unfold handle_endtag.
  by rewrite Hst, (endtag_loop_matched _ _ _ _ _ _ _ Habove Hr).
Qed.

(** C7.  An end tag that names no item of the open-tag stack changes
    nothing and raises nothing; when such an end tag is the only callback,
    [cur_tag] stays [None] and [parse] returns [None]. *)
Theorem handle_endtag_unmatched_noop :
  (∀ t p,
     (∀ r o, r ∈ tag_stack p → store p !! r = Some o → o_tag o ≠ t) →
     handle (EndTag t) p = Ret p) ∧
  (∀ x, handle_all [EndTag x] init = Ret init ∧
        cur_tag init = None ∧
        parse_events [EndTag x] = Ret None).
Proof.
  split.
  - intros t p H. simpl. f_equal. unfold handle_endtag.
    rewrite endtag_loop_unmatched by by apply existsb_tag_is_false.
    by destruct p.
  - done.
Qed.

Lemma handle_endtag_unmatched_noop_witness :
  let p := handle_starttag "b" [] (handle_starttag "a" [] init) in
  handle (EndTag "x") p = Ret p.
Proof.
  apply (proj1 handle_endtag_unmatched_noop).
  intros r o Hr Ho. apply list_elem_of_lookup in Hr as [i Hi].
  destruct i as [|[|i]]; simpl in Hi; simplify_eq; vm_compute in Ho;
    by simplify_eq.
Defined.

(** C1.  On [<a><b></a>] the end tag of [a] pops [b] and [a] off the stack;
    [b] stays a child of [a] in the tree, and the root that [parse] returns
    is the node named [a]. *)
Theorem unclosed_tag_is_closed_with_its_parent :
  let p2 := handle_starttag "b" [] (handle_starttag "a" [] init) in
  let p3 := handle_endtag "a" p2 in
  tag_stack p2 = [1; 0] ∧
  o_tag <$> store p2 = ["a"; "b"] ∧
  tag_stack p3 = [] ∧ cur_tag p3 = Some 0 ∧ after_end p3 = true ∧
  handle_all [StartTag "a" []; StartTag "b" []; EndTag "a"] init = Ret p3 ∧
  parse_events [StartTag "a" []; StartTag "b" []; EndTag "a"] =
    Ret (Some (mkElement "a" ∅ None None [mkElement "b" ∅ None None []])).
Proof. vm_compute. repeat split. Qed.

(** ** [handle_data] *)




(** C6.  [Data(data)] never raises.  With [cur_tag] unset the data is
    dropped.  Otherwise [data.strip()] becomes the text of the current
    element when [after_end] is not set and its tail when it is set, and
    every other field of the element stays as it was; no other element, and
    nothing else of the parser, changes.  On [<a>  hi </a> there  ] the
    element [a] gets the text ["hi"] and the tail ["there"]; data before the
    first tag is lost. *)
Theorem handle_data_assigns data p :
  handle (Data data) p = Ret (handle_data data p) ∧
  (cur_tag p = None → handle_data data p = p) ∧
  (∀ c o, cur_tag p = Some c → store p !! c = Some o →
     let p' := handle_data data p in
     (after_end p = false →
        store p' !! c =
          Some (mkObj (o_tag o) (o_attrib o) (Some (strip data)) (o_tail o)
                  (o_children o))) ∧
     (after_end p = true →
        store p' !! c =
          Some (mkObj (o_tag o) (o_attrib o) (o_text o) (Some (strip data))
                  (o_children o))) ∧
     (∀ r, r ≠ c → store p' !! r = store p !! r) ∧
     length (store p') = length (store p) ∧
     tag_stack p' = tag_stack p ∧
     cur_tag p' = cur_tag p ∧
     after_end p' = after_end p) ∧
  parse_events [StartTag "a" []; Data "  hi "; EndTag "a"; Data " there  "] =
    Ret (Some (mkElement "a" ∅ (Some "hi") (Some "there") [])) ∧
  parse_events [StartTag "a" []; Data " x y "] =
    Ret (Some (mkElement "a" ∅ (Some "x y") None [])) ∧
  parse_events [Data "lost"; StartTag "a" []; EndTag "a"] =
    Ret (Some (mkElement "a" ∅ None None [])) ∧
  parse_events [Data "lost"] = Ret None.
Proof.
  split; [done|]. split; [|split; [|by vm_compute]].
  - intros Hc. unfold handle_data. by rewrite Hc.
  - intros c o Hc Ho. cbv zeta. unfold handle_data. rewrite Hc.
    destruct (after_end p); simpl; rewrite length_alter;
      repeat split; try done;
      try (intros _; by rewrite list_lookup_alter_eq, Ho);
      intros r Hr; by rewrite list_lookup_alter_ne.
Qed.

Lemma handle_data_assigns_witness :
  let p := handle_starttag "a" [] init in
  store (handle_data " x " p) !! 0 = Some (mkObj "a" ∅ (Some "x") None []) ∧
  store (handle_data " y " (handle_endtag "a" p)) !! 0 =
    Some (mkObj "a" ∅ None (Some "y") []).
Proof.
  split.
  - exact (proj1 (proj1 (proj2 (proj2 (handle_data_assigns " x "
             (handle_starttag "a" [] init)))) 0
             (mkObj "a" ∅ None None []) eq_refl eq_refl) eq_refl).
  - exact (proj1 (proj2 (proj1 (proj2 (proj2 (handle_data_assigns " y "
             (handle_endtag "a" (handle_starttag "a" [] init))))) 0
             (mkObj "a" ∅ None None []) eq_refl eq_refl)) eq_refl).
Defined.



(** ** [parse] *)

(** What [element_at] reads is the element the reference stands for. *)
Lemma element_at_tree_in h fuel :
  ∀ r e, element_at fuel h r = Some e → tree_in h r e.
Proof.
  induction fuel as [|fuel IH]; intros r e; [done|]. simpl.
  destruct (h !! r) as [o|] eqn:Ho; [|done]. simpl.
  destruct (mapM (element_at fuel h) (o_children o)) as [cs|] eqn:Hcs;
    [|done].
  simpl. intros [= <-]. constructor; [done|].
  apply mapM_Some in Hcs. eapply Forall2_impl; [exact Hcs|].
  intros k c. apply IH.
Qed.

Lemma tree_in_root h r e :
  tree_in h r e →
  ∃ o, h !! r = Some o ∧ tag e = o_tag o ∧ attrib e = o_attrib o ∧
       text e = o_text o ∧ tail e = o_tail o ∧
       Forall2 (tree_in h) (o_children o) (children e).
Proof. intros H. inversion H; subst. by eexists. Qed.

(** C8.  [parse] returns [cur_tag] as it stands after the last callback.
    With [cur_tag] unset it returns [None]; otherwise it returns the element
    [cur_tag] refers to: that object's tag, attributes, text and tail, with
    the elements of its children list below it.  [cur_tag] is the element of
    the last start tag or of the last pop.  So on [<a></a><b></b>] the result
    is [b], not [a]; on [<a><b></b></a>] it is [a], the last element popped,
    with [b] below it, and not [b], the last element created; on [<a><b>] it
    is [b], not the outermost element. *)
Theorem parse_returns_cur_tag :
  (∀ evs p, handle_all evs init = Ret p →
     parse_events evs = Ret (result p) ∧
     (result p = None ↔ cur_tag p = None) ∧
     (∀ r, cur_tag p = Some r →
        ∃ o e, store p !! r = Some o ∧
          parse_events evs = Ret (Some e) ∧
          tree_in (store p) r e ∧
          tag e = o_tag o ∧ attrib e = o_attrib o ∧
          text e = o_text o ∧ tail e = o_tail o ∧
          Forall2 (tree_in (store p)) (o_children o) (children e))) ∧
  (∀ t attrs p, cur_tag (handle_starttag t attrs p) = Some (length (store p))) ∧
  (∀ t p above r rest,
     tag_stack p = above ++ r :: rest →
     Forall (λ x, tag_is (store p) t x = false) above →
     tag_is (store p) t r = true →
     cur_tag (handle_endtag t p) = Some r) ∧
  (∀ data p, cur_tag (handle_data data p) = cur_tag p) ∧
  parse_events [StartTag "a" []; EndTag "a"; StartTag "b" []; EndTag "b"] =
    Ret (Some (mkElement "b" ∅ None None [])) ∧
  parse_events [StartTag "a" []; StartTag "b" []; EndTag "b"; EndTag "a"] =
    Ret (Some (mkElement "a" ∅ None None [mkElement "b" ∅ None None []])) ∧
  parse_events [StartTag "a" []; StartTag "b" []] =
    Ret (Some (mkElement "b" ∅ None None [])) ∧
  parse_events [StartTag "a" [("k", Some "v")]; Data "x"; StartTag "b" [];
                Data "y"; EndTag "b"; Data "z"; EndTag "a"; Data "w"] =
    Ret (Some (mkElement "a" {["k" := "v"]} (Some "x") (Some "w")
                 [mkElement "b" ∅ (Some "y") (Some "z") []])).
Proof.
  split; [|split; [|split; [|split]]].
  - intros evs p Hp. unfold parse_events. rewrite Hp.
    assert (Hok : parser_ok p) by (by eapply handle_all_ok; [apply init_ok|]).
    split; [done|]. split; [split|].
    + intros Hres. destruct (cur_tag p) as [r|] eqn:Hr; [|done].
      destruct (result_total p) as [e He]; [done|by rewrite Hr|congruence].
    + intros Hc. unfold result. by rewrite Hc.
    + intros r Hr.
      destruct (result_total p) as [e He]; [done|by rewrite Hr|].
      assert (Ht : tree_in (store p) r e).
      { unfold result in He. rewrite Hr in He.
        by eapply element_at_tree_in. }
      destruct (tree_in_root _ _ _ Ht) as (o & Ho & H).
      exists o, e. split; [done|]. split; [simpl; by rewrite He|].
      split; [done | apply H].
  - done.
  - intros t p above r rest Hst Ha Hr.
    by rewrite (handle_endtag_matched t p above r rest).
  - intros data p. unfold handle_data.
    destruct (cur_tag p) eqn:Hc; [by destruct (after_end p) | done].
  - by vm_compute.
Qed.

Lemma parse_returns_cur_tag_witness :
  let evs := [StartTag "a" []; StartTag "b" []; StartTag "c" []; EndTag "b"] in
  ∃ o e, [mkObj "a" ∅ None None [1]; mkObj "b" ∅ None None [2];
          mkObj "c" ∅ None None []] !! 1 = Some o ∧
    parse_events evs = Ret (Some e) ∧
    tree_in [mkObj "a" ∅ None None [1]; mkObj "b" ∅ None None [2];
             mkObj "c" ∅ None None []] 1 e ∧
    tag e = o_tag o ∧ attrib e = o_attrib o ∧
    text e = o_text o ∧ tail e = o_tail o ∧
    Forall2 (tree_in [mkObj "a" ∅ None None [1]; mkObj "b" ∅ None None [2];
                      mkObj "c" ∅ None None []]) (o_children o) (children e).
Proof.
  exact (proj2 (proj2 (proj1 parse_returns_cur_tag
           [StartTag "a" []; StartTag "b" []; StartTag "c" []; EndTag "b"]
           _ eq_refl)) 1 eq_refl).
Defined.

(** ** [strip] *)

Lemma lstrip_whitespace s :
  forallb isspace (list_ascii_of_string s) = true → lstrip s = "".
Proof.
  induction s as [|c r IH]; [done|]. simpl.
  intros [Hc Hr]%andb_true_iff. rewrite Hc. by apply IH.
Qed.

Lemma strip_whitespace s :
  forallb isspace (list_ascii_of_string s) = true → strip s = "".
Proof. intros H. unfold strip. by rewrite lstrip_whitespace. Qed.

Example strip_examples :
  strip "  {a b}  " = "{a b}" ∧ strip "" = "" ∧ strip "x" = "x".
Proof. repeat split. Qed.

(** ** [str_to_etree] *)

Section StrToEtreeProps.

Variable str_float : spec_float -> string.
Variable json_loads : string -> Outcome json.
Variable tokenize : string -> list Event.

Local Abbreviation s2e := (str_to_etree str_float json_loads tokenize).

Lemma str_to_etree_json s :
  startswith (strip s) "{" || startswith (strip s) "[" = true →
  s2e s =
    (j ← json_loads (strip s); Ret (Some (json_to_etree str_float j "root"))).
Proof. intros H. unfold str_to_etree. by rewrite H. Qed.

Lemma str_to_etree_markup s :
  startswith (strip s) "<" = true →
  s2e s = parse_events (tokenize (strip s)).
Proof.
  intros H. unfold str_to_etree.
  destruct (strip s) as [|c r]; [done|].
  destruct (startswith (String c r) "{" || startswith (String c r) "[")
    eqn:Hj; [|by rewrite H].
  exfalso. revert H Hj. unfold startswith. simpl.
  repeat case_match; simplify_eq; done.
Qed.

(** C3.  When the stripped input starts with none of the three characters
    the result is [None], with nothing raised; the empty string and the
    strings of whitespace only are such inputs. *)
Theorem str_to_etree_unrecognized :
  (∀ s,
     startswith (strip s) "{" = false →
     startswith (strip s) "[" = false →
     startswith (strip s) "<" = false →
     s2e s = Ret None) ∧
  (∀ s, forallb isspace (list_ascii_of_string s) = true → s2e s = Ret None) ∧
  s2e "" = Ret None ∧
  s2e "  " = Ret None ∧
  s2e "not json or html" = Ret None.
Proof.
  assert (H : ∀ s,
     startswith (strip s) "{" = false →
     startswith (strip s) "[" = false →
     startswith (strip s) "<" = false →
     s2e s = Ret None).
  { intros s H1 H2 H3. unfold str_to_etree. by rewrite H1, H2, H3. }
  split; [done|]. split; [|by repeat split].
  intros s Hs. apply H; by rewrite strip_whitespace.
Qed.

(** C4, as the code has it.  When the stripped input starts with [{] or
    [[] and [json.loads] raises [JSONDecodeError], [str_to_etree] lets
    that exception through: what the caller sees is [JSONDecodeError], and
    not [ResultParseError]. *)
Theorem str_to_etree_undecodable_json s
    (Hjson : startswith (strip s) "{" || startswith (strip s) "[" = true)
    (Hbad : json_loads (strip s) = Raise JSONDecodeError) :
  s2e s = Raise JSONDecodeError ∧ s2e s ≠ Raise ResultParseError.
Proof.
  assert (H : s2e s = Raise JSONDecodeError).
  { rewrite str_to_etree_json by done. by rewrite Hbad. }
  split; [done|]. by rewrite H.
Qed.

End StrToEtreeProps.

Lemma str_to_etree_unrecognized_witness :
  str_to_etree (λ _, "") (λ _, Raise JSONDecodeError) (λ _, [])
    " plain text " = Ret None ∧
  str_to_etree (λ _, "") (λ _, Raise JSONDecodeError) (λ _, [])
    "   " = Ret None.
Proof.
  split.
  - apply (proj1 (str_to_etree_unrecognized (λ _, "")
                    (λ _, Raise JSONDecodeError) (λ _, [])));
      reflexivity.
  - apply (proj1 (proj2 (str_to_etree_unrecognized (λ _, "")
                    (λ _, Raise JSONDecodeError) (λ _, []))));
      reflexivity.
Defined.

Lemma str_to_etree_undecodable_json_witness :
  let s2e := str_to_etree (λ _, "") (λ _, Raise JSONDecodeError) (λ _, []) in
  s2e "{bad json" = Raise JSONDecodeError ∧
  s2e "{bad json" ≠ Raise ResultParseError.
Proof.
  apply (str_to_etree_undecodable_json (λ _, "")
           (λ _, Raise JSONDecodeError) (λ _, []) "{bad json");
    reflexivity.
Defined.

(** * Further properties *)

(** ** More on [json_to_etree] *)

Section JsonMore.

Variable str_float : spec_float -> string.
Local Abbreviation j2e := (json_to_etree str_float).

(** X1.  A decoded object mapped with root name [r] gives a node named [r]
    with no text and one child per entry, in the order of the entries; the
    child of an entry is named by its key and is the mapping of its value. *)
Theorem json_to_etree_object entries r :
  let e := json_to_etree str_float (JDict entries) r in
  tag e = r ∧
  text e = None ∧
  tag <$> children e = entries.*1 ∧
  ∀ i, children e !! i =
       (λ kv, json_to_etree str_float kv.2 kv.1) <$> entries !! i.
Proof.
  cbv zeta. rewrite json_dict_tree. simpl.
  split; [done|]. split; [done|]. split.
  - rewrite <- list_fmap_compose. apply list_fmap_ext.
    intros i [k v] _. simpl. apply json_to_etree_tag.
  - intros i. apply list_lookup_fmap.
Qed.

Lemma json_root_bare v t : attrib (j2e v t) = ∅ ∧ tail (j2e v t) = None.
Proof.
  destruct v; try (split; reflexivity).
  - by rewrite json_list_tree.
  - by rewrite json_dict_tree.
Qed.

(** X2.  No node of a JSON tree has an attribute or a tail. *)
Theorem json_tree_no_attrib_no_tail v t e (He : e ∈ nodes (j2e v t)) :
  attrib e = ∅ ∧ tail e = None.
Proof.
  apply json_nodes_are_images in He as (v' & t' & ->). apply json_root_bare.
Qed.

Lemma nodes_length e :
  length (nodes e) = S (sum_list (length ∘ nodes <$> children e)).
Proof.
  destruct e as [t a x tl cs]. simpl. f_equal.
  induction cs as [|c r IH]; [done|]. simpl.
  by rewrite length_app, IH.
Qed.

Lemma json_size_list items :
  json_size (JList items) = S (sum_list (json_size <$> items)).
Proof. simpl. f_equal. induction items as [|x r IH]; simpl; [done|by rewrite IH]. Qed.

Lemma json_size_dict entries :
  json_size (JDict entries) = S (sum_list ((λ kv, json_size kv.2) <$> entries)).
Proof. simpl. f_equal. induction entries as [|x r IH]; simpl; [done|by rewrite IH]. Qed.

(** X3.  A JSON tree has exactly one node for every value of the decoded
    input, the input itself and every value nested in it, whatever the root
    name. *)
Theorem json_tree_node_count v :
  ∀ t, length (nodes (j2e v t)) = json_size v.
Proof.
  induction v as [| b | z | f | s | items IH | entries IH]
    using json_nested_ind; intros t; try reflexivity.
  - rewrite nodes_length, json_list_tree, json_size_list. simpl. f_equal.
    assert (H : ∀ n, sum_list (length ∘ nodes <$>
              imap (λ k v, j2e v ("i" +:+ str_nat (n + k))) items)
            = sum_list (json_size <$> items)).
    { induction IH as [|x r Hx _ IHr]; intros m; [done|]. simpl.
      rewrite Hx. f_equal. etrans; [|apply (IHr (S m))]. do 2 f_equal.
      apply imap_ext. intros k v _. simpl. do 3 f_equal. lia. }
    apply (H 0).
  - rewrite nodes_length, json_dict_tree, json_size_dict. simpl. f_equal.
    induction IH as [|[k x] r Hx _ IHr]; [done|]. simpl in *.
    rewrite Hx. f_equal. apply IHr.
Qed.

(** X4.  The mapping loses the type of a value: an int or a bool gives the
    tree of the string [str] makes of it, null gives the tree of the empty
    list and of the empty dictionary, and a list gives the tree of the
    dictionary that holds its items under the keys [i0], [i1], ... *)
Theorem json_to_etree_not_injective t :
  (∀ z, j2e (JInt z) t = j2e (JStr (str_int z)) t) ∧
  (∀ b, j2e (JBool b) t = j2e (JStr (str_bool b)) t) ∧
  j2e JNull t = j2e (JList []) t ∧
  j2e (JList []) t = j2e (JDict []) t ∧
  (∀ items,
     j2e (JList items) t =
     j2e (JDict (imap (λ i v, ("i" +:+ str_nat i, v)) items)) t).
Proof.
  repeat split.
  intros items. rewrite json_list_tree, json_dict_tree. f_equal.
  rewrite fmap_imap. by apply imap_ext.
Qed.

End JsonMore.

(** ** Well-nested markup *)

Section MarkupInd.

Variable P : Markup -> Prop.
Hypothesis Hnode :
  forall t attrs txt kids tl, Forall P kids -> P (Node t attrs txt kids tl).

Fixpoint Markup_nested_ind (m : Markup) : P m :=
  match m with
  | Node t attrs txt kids tl =>
      Hnode t attrs txt kids tl
        ((fix all (l : list Markup) : Forall P l :=
            match l with
            | [] => @List.Forall_nil _ P
            | x :: r => @List.Forall_cons _ P x r (Markup_nested_ind x) (all r)
            end) kids)
  end.

End MarkupInd.

Lemma events_of_node t attrs txt kids tl :
  events_of (Node t attrs txt kids tl) =
  StartTag t attrs :: data_of txt ++ concat (events_of <$> kids) ++
  EndTag t :: data_of tl.
Proof.
  assert (H : ∀ ks,
    (fix over (ks : list Markup) : list Event :=
       match ks with
       | [] => []
       | k :: r => events_of k ++ over r
       end) ks = concat (events_of <$> ks)).
  { induction ks as [|k r IH]; [done|]. simpl. by rewrite IH. }
  simpl. by rewrite H.
Qed.

Lemma tree_of_node t attrs txt kids tl :
  tree_of (Node t attrs txt kids tl) =
  mkElement t (attrs_dict attrs) (strip <$> txt) (strip <$> tl)
    (tree_of <$> kids).
Proof.
  assert (H : ∀ ks,
    (fix over (ks : list Markup) : list Element :=
       match ks with
       | [] => []
       | k :: r => tree_of k :: over r
       end) ks = tree_of <$> ks).
  { induction ks as [|k r IH]; [done|]. simpl. by rewrite IH. }
  simpl. by rewrite H.
Qed.

Lemma msize_node t attrs txt kids tl :
  msize (Node t attrs txt kids tl) = S (sum_list (msize <$> kids)).
Proof.
  assert (H : ∀ ks,
    (fix sum (ks : list Markup) : nat :=
       match ks with
       | [] => 0
       | k :: r => msize k + sum r
       end) ks = sum_list (msize <$> ks)).
  { induction ks as [|k r IH]; [done|]. simpl. by rewrite IH. }
  simpl. by rewrite H.
Qed.

Lemma alloc_node t attrs txt kids tl n :
  alloc (Node t attrs txt kids tl) n =
  mkObj t (attrs_dict attrs) (strip <$> txt) (strip <$> tl)
    (child_refs kids (S n)) :: alloc_kids kids (S n).
Proof. reflexivity. Qed.

Lemma alloc_kids_cons x r k :
  alloc_kids (x :: r) k = alloc x k ++ alloc_kids r (k + msize x).
Proof. reflexivity. Qed.

Lemma alloc_length m : ∀ n, length (alloc m n) = msize m.
Proof.
  induction m as [t attrs txt kids tl IH] using Markup_nested_ind. intros n.
  rewrite alloc_node, msize_node. simpl. f_equal.
  generalize (S n). induction IH as [|k r Hk _ IHr]; intros j; [done|].
  rewrite alloc_kids_cons, length_app, Hk. simpl. by rewrite IHr.
Qed.

Lemma alloc_kids_length ks k :
  length (alloc_kids ks k) = sum_list (msize <$> ks).
Proof.
  revert k. induction ks as [|x r IH]; intros k; [done|].
  rewrite alloc_kids_cons, length_app, alloc_length, IH. done.
Qed.

Lemma handle_all_app a b p :
  handle_all (a ++ b) p = handle_all a p ≫= handle_all b.
Proof.
  revert p. induction a as [|ev a IH]; intros p; [done|]. simpl.
  destruct (handle ev p) as [p1|e]; simpl; [apply IH | done].
Qed.

Lemma attach_length p : length (attach p) = length (store p).
Proof. unfold attach. destruct (tag_stack p); by rewrite ?length_alter. Qed.

Lemma handle_starttag_attach t attrs p :
  top_ok p →
  handle_starttag t attrs p =
  mkParser (attach p ++ [mkObj t (attrs_dict attrs) None None []])
    (length (store p) :: tag_stack p) (Some (length (store p))) false.
Proof.
  intros Htop. unfold handle_starttag, attach. f_equal.
  destruct (tag_stack p) as [|top rest] eqn:Hst; [done|].
  apply alter_app_l. apply Htop. by rewrite Hst.
Qed.

Lemma alter_middle (f : Obj → Obj) (A B : list Obj) o :
  alter f (length A) (A ++ o :: B) = A ++ f o :: B.
Proof.
  rewrite <- (Nat.add_0_r (length A)) at 1. by rewrite alter_app_r.
Qed.

Lemma lookup_middle (A B : list Obj) o : (A ++ o :: B) !! length A = Some o.
Proof. by rewrite list_lookup_middle. Qed.

Lemma handle_data_opt_text (A B : list Obj) o st d :
  handle_all (data_of d) (mkParser (A ++ o :: B) st (Some (length A)) false) =
  Ret (mkParser
         (A ++ mkObj (o_tag o) (o_attrib o)
                 (match d with Some s => Some (strip s) | None => o_text o end)
                 (o_tail o) (o_children o) :: B)
         st (Some (length A)) false).
Proof.
  destruct d as [s|]; simpl.
  - unfold handle_data. simpl. by rewrite alter_middle.
  - by destruct o.
Qed.

Lemma handle_data_opt_tail (A B : list Obj) o st d :
  handle_all (data_of d) (mkParser (A ++ o :: B) st (Some (length A)) true) =
  Ret (mkParser
         (A ++ mkObj (o_tag o) (o_attrib o) (o_text o)
                 (match d with Some s => Some (strip s) | None => o_tail o end)
                 (o_children o) :: B)
         st (Some (length A)) true).
Proof.
  destruct d as [s|]; simpl.
  - unfold handle_data. simpl. by rewrite alter_middle.
  - by destruct o.
Qed.

Lemma handle_endtag_top (A B : list Obj) o st c ae :
  handle_endtag (o_tag o) (mkParser (A ++ o :: B) (length A :: st) c ae) =
  mkParser (A ++ o :: B) st (Some (length A)) true.
Proof.
  unfold handle_endtag. simpl.
  assert (H : tag_is (A ++ o :: B) (o_tag o) (length A) = true).
  { unfold tag_is. rewrite lookup_middle. by apply bool_decide_eq_true. }
  by rewrite H.
Qed.

Lemma handle_all_cons ev evs p p1 :
  handle ev p = Ret p1 → handle_all (ev :: evs) p = handle_all evs p1.
Proof. intros H. simpl. by rewrite H. Qed.

Lemma handle_all_app_ret a b p p1 :
  handle_all a p = Ret p1 → handle_all (a ++ b) p = handle_all b p1.
Proof. intros H. by rewrite handle_all_app, H. Qed.

(** The callbacks of a well-nested document, from any parser state whose
    stack top is in the store: the document's objects are appended to the
    store in document order, its root is attached to the element on top of
    the stack, the stack is as before, and [cur_tag] is the root. *)
Lemma run_markup m :
  ∀ p, top_ok p →
    handle_all (events_of m) p =
    Ret (mkParser (attach p ++ alloc m (length (store p))) (tag_stack p)
           (Some (length (store p))) true).
Proof.
  induction m as [t attrs txt kids tl IH] using Markup_nested_ind.
  intros p Htop. rewrite events_of_node.
  rewrite (handle_all_cons _ _ _ (handle_starttag t attrs p)) by done.
  rewrite handle_starttag_attach by done.
  rewrite <- (attach_length p). set (A := attach p). set (st := tag_stack p).
  clearbody A st. clear Htop p.
  rewrite (handle_all_app_ret _ _ _ _ (handle_data_opt_text A [] _ _ txt)).
  simpl o_tag. simpl o_attrib. simpl o_tail. simpl o_children.
  set (o1 := mkObj t (attrs_dict attrs) _ None []).
  assert (Ho1 : o1 = mkObj t (attrs_dict attrs) (strip <$> txt) None [])
    by (by destruct txt).
  clearbody o1. subst o1.
  (* the children *)
  assert (Hkids : ∀ cs B c ae,
    ∃ c' ae',
      handle_all (concat (events_of <$> kids))
        (mkParser (A ++ mkObj t (attrs_dict attrs) (strip <$> txt) None cs :: B)
           (length A :: st) c ae) =
      Ret (mkParser
             (A ++ mkObj t (attrs_dict attrs) (strip <$> txt) None
                     (cs ++ child_refs kids (S (length A) + length B))
                :: B ++ alloc_kids kids (S (length A) + length B))
             (length A :: st) c' ae')).
  { induction IH as [|k r Hk _ IHr]; intros cs B c ae.
    - exists c, ae. simpl. by rewrite !app_nil_r.
    - rewrite fmap_cons. simpl concat.
      destruct (IHr (cs ++ [S (length A) + length B])
                  (B ++ alloc k (S (length A) + length B))
                  (Some (S (length A) + length B)) true) as (c' & ae' & Hr).
      exists c', ae'.
      erewrite handle_all_app_ret; last first.
      { apply Hk. intros top [= <-]. simpl. rewrite length_app. simpl. lia. }
      cbn [attach tag_stack store].
      rewrite alter_middle. unfold o_append. simpl.
      rewrite length_app. simpl.
      replace (length A + S (length B)) with (S (length A + length B)) by lia.
      rewrite <- app_assoc. simpl. simpl in Hr. rewrite Hr.
      rewrite length_app, alloc_length. rewrite <- !app_assoc. simpl.
      replace (length A + (length B + msize k))
        with (length A + length B + msize k) by lia.
      done. }
  destruct (Hkids [] [] (Some (length A)) false) as (c' & ae' & Hk).
  rewrite (handle_all_app_ret _ _ _ _ Hk). simpl length. rewrite Nat.add_0_r.
  simpl app at 2 3.
  rewrite (handle_all_cons _ _ _ (handle_endtag t _)) by done.
  rewrite (handle_endtag_top A _
             (mkObj t (attrs_dict attrs) (strip <$> txt) None
                (child_refs kids (S (length A))))).
  rewrite handle_data_opt_tail, alloc_node. simpl.
  by destruct tl.
Qed.

(** Reading back the objects of a well-nested document gives its tree,
    whatever else the store holds before and after them. *)
Lemma element_at_alloc m :
  ∀ (fuel : nat) (A C : list Obj),
    msize m ≤ fuel →
    element_at fuel (A ++ alloc m (length A) ++ C) (length A) = Some (tree_of m).
Proof.
  induction m as [t attrs txt kids tl IH] using Markup_nested_ind.
  intros fuel A C Hfuel. rewrite msize_node in Hfuel.
  destruct fuel as [|fuel]; [lia|]. apply le_S_n in Hfuel.
  rewrite alloc_node, tree_of_node. simpl.
  rewrite list_lookup_middle by done. simpl.
  set (h := A ++ _ :: alloc_kids kids (S (length A)) ++ C).
  assert (Hkids : ∀ (A' C' : list Obj),
    h = A' ++ alloc_kids kids (length A') ++ C' →
    mapM (element_at fuel h) (child_refs kids (length A')) =
    Some (tree_of <$> kids)).
  { clearbody h. clear A C.
    induction IH as [|k r Hk _ IHr]; intros A' C' Hh; [done|].
    change (msize k + sum_list (msize <$> r) ≤ fuel) in Hfuel.
    rewrite alloc_kids_cons in Hh. simpl.
    rewrite <- app_assoc in Hh.
    rewrite Hh at 1. rewrite Hk by lia. simpl.
    rewrite <- (alloc_length k (length A')), <- length_app.
    rewrite (IHr ltac:(lia) (A' ++ alloc k (length A')) C'); [done|].
    by rewrite length_app, alloc_length, <- app_assoc. }
  pose proof (Hkids (A ++ [mkObj t (attrs_dict attrs) (strip <$> txt)
                         (strip <$> tl) (child_refs kids (S (length A)))]) C)
    as H.
  rewrite length_app in H. simpl in H. rewrite Nat.add_1_r in H.
  rewrite H; [done|]. subst h. by rewrite <- app_assoc.
Qed.

Lemma parser_ok_top_ok p : parser_ok p → top_ok p.
Proof.
  intros (_ & Hst & _) top Htop. apply Hst.
  destruct (tag_stack p); simplify_eq/=. by left.
Qed.

Lemma parse_events_markup_after evs p m :
  handle_all evs init = Ret p →
  parse_events (evs ++ events_of m) = Ret (Some (tree_of m)).
Proof.
  intros Hp. unfold parse_events.
  rewrite (handle_all_app_ret _ _ _ _ Hp).
  rewrite run_markup; last first.
  { apply parser_ok_top_ok. by eapply handle_all_ok; [apply init_ok|]. }
  simpl. unfold result. simpl. f_equal.
  rewrite <- (attach_length p).
  rewrite <- (app_nil_r (alloc m _)).
  apply element_at_alloc.
  rewrite !length_app, alloc_length. simpl. lia.
Qed.

(** X10.  Parsing the callbacks of a well-nested document gives back the
    tree of the document: same nesting and order, attribute dictionaries,
    and the stripped text and tail of every element. *)
Theorem parse_events_well_nested m :
  parse_events (events_of m) = Ret (Some (tree_of m)).
Proof. by apply (parse_events_markup_after [] init m). Qed.

(** X11.  What [parse] returns is the last complete element: when the
    callbacks end with those of a well-nested element, the result is the
    tree of that element, whatever callbacks came before it (open tags that
    were never closed included). *)
Theorem parse_events_returns_last_element evs p m
    (Hp : handle_all evs init = Ret p) :
  parse_events (evs ++ events_of m) = Ret (Some (tree_of m)).
Proof. by eapply parse_events_markup_after. Qed.

(** ** [attrs_dict] *)

Lemma attrs_fold_lookup_notin (attrs : list (string * option string)) k
    (d : gmap string string) :
  k ∉ attrs.*1 →
  foldl (λ d kv, <[kv.1 := default "" kv.2]> d) d attrs !! k = d !! k.
Proof.
  revert d. induction attrs as [|[k' v'] r IH]; intros d Hk; [done|].
  simpl in *. apply not_elem_of_cons in Hk as [Hne Hk].
  rewrite IH by done. by rewrite lookup_insert_ne.
Qed.

(** X5.  In the attribute dictionary of a start tag the last pair of a name
    wins, an attribute without a value ([None]) is stored as the empty
    string, and a name that is in no pair is not in the dictionary. *)
Theorem attrs_dict_lookup :
  (∀ pre k v post,
     k ∉ post.*1 →
     attrs_dict (pre ++ (k, v) :: post) !! k = Some (default "" v)) ∧
  (∀ attrs k, k ∉ attrs.*1 → attrs_dict attrs !! k = None).
Proof.
  split.
  - intros pre k v post Hk. unfold attrs_dict. rewrite foldl_app. simpl.
    rewrite attrs_fold_lookup_notin by done. apply lookup_insert_eq.
  - intros attrs k Hk. unfold attrs_dict.
    by rewrite attrs_fold_lookup_notin.
Qed.

(** ** [handle_starttag] *)

(** X6.  A start tag, in a parser state the callbacks can reach, creates one
    element with the tag, the attribute dictionary, no text, no tail and no
    child, pushes it and makes it [cur_tag], and clears [after_end].  Of the
    elements that existed only the one on top of the stack changes: the new
    element becomes its last child. *)
Theorem handle_starttag_effect t attrs p (Hok : parser_ok p) :
  let p' := handle_starttag t attrs p in
  let new := length (store p) in
  store p' !! new = Some (mkObj t (attrs_dict attrs) None None []) ∧
  length (store p') = S (length (store p)) ∧
  tag_stack p' = new :: tag_stack p ∧
  cur_tag p' = Some new ∧
  after_end p' = false ∧
  (∀ r o, store p !! r = Some o →
     store p' !! r =
       Some (if decide (head (tag_stack p) = Some r) then o_append new o
             else o)).
Proof.
  cbv zeta. rewrite handle_starttag_attach by by apply parser_ok_top_ok.
  simpl. split; [|split; [|repeat split]].
  - rewrite <- (attach_length p). by rewrite list_lookup_middle.
  - by rewrite length_app, attach_length, Nat.add_1_r.
  - intros r o Ho.
    rewrite lookup_app_l by (rewrite attach_length; by eapply lookup_lt_Some).
    unfold attach. destruct (tag_stack p) as [|top rest]; simpl.
    + by rewrite Ho.
    + destruct (decide (top = r)) as [->|Hne].
      * rewrite list_lookup_alter_eq, Ho. simpl. by rewrite decide_True.
      * rewrite list_lookup_alter_ne, Ho by done.
        rewrite decide_False; [done | congruence].
Qed.

(** ** [handle_endtag] *)

Lemma tag_is_true h t r o : h !! r = Some o → o_tag o = t → tag_is h t r = true.
Proof. intros Hr Ht. unfold tag_is. rewrite Hr. by apply bool_decide_eq_true. Qed.

Lemma tag_is_false h t r :
  (∀ o, h !! r = Some o → o_tag o ≠ t) → tag_is h t r = false.
Proof.
  intros H. unfold tag_is. destruct (h !! r) as [o|]; [|done].
  apply bool_decide_eq_false. by apply H.
Qed.

(** X7.  An end tag whose name is the tag of a stack item [r], with no item
    of that name above [r], pops [r] and every item above it in one step:
    the stack is what was below [r], [cur_tag] is [r], [after_end] is set,
    and no element changes. *)
Theorem handle_endtag_closes_through t p above r rest o
    (Hstack : tag_stack p = above ++ r :: rest)
    (Habove : ∀ x ox, x ∈ above → store p !! x = Some ox → o_tag ox ≠ t)
    (Hr : store p !! r = Some o)
    (Ht : o_tag o = t) :
  handle (EndTag t) p = Ret (mkParser (store p) rest (Some r) true).
Proof.
  simpl. f_equal. apply (handle_endtag_matched t p above r rest Hstack).
  - apply Forall_forall. intros x Hx. apply tag_is_false.
    intros ox. by apply Habove.
  - by eapply tag_is_true.
Qed.

(** ** [error] *)

Lemma handle_all_error evs p :
  (∃ m, Error m ∈ evs) → handle_all evs p = Raise ResultParseError.
Proof.
  revert p. induction evs as [|ev evs IH]; intros p [m Hm].
  - by apply elem_of_nil in Hm.
  - apply elem_of_cons in Hm as [<- | Hm]; [done|].
    simpl. destruct (handle ev p) as [p1|e] eqn:Hev; simpl.
    + apply IH. by exists m.
    + destruct ev; simplify_eq/=. done.
Qed.

(** X8.  When the tokenizer calls [error], whatever the callbacks before it,
    [parse] raises [ResultParseError] and returns nothing: the elements built
    so far are not returned, and no later callback is reached. *)
Theorem parse_events_error_raises pre m post :
  handle_all (pre ++ Error m :: post) init = Raise ResultParseError ∧
  parse_events (pre ++ Error m :: post) = Raise ResultParseError ∧
  (∀ r, parse_events (pre ++ Error m :: post) ≠ Ret r).
Proof.
  assert (H : handle_all (pre ++ Error m :: post) init = Raise ResultParseError).
  { apply handle_all_error. exists m. apply elem_of_app. right. left. }
  split; [done|]. unfold parse_events. rewrite H. by split.
Qed.

(** ** The store only grows *)

Lemma obj_grows_refl o : obj_grows o o.
Proof. by repeat split. Qed.

Lemma obj_grows_trans o1 o2 o3 :
  obj_grows o1 o2 → obj_grows o2 o3 → obj_grows o1 o3.
Proof.
  intros (? & ? & ?) (? & ? & ?). repeat split; try congruence.
  by etrans.
Qed.

Lemma alter_grows (f : Obj → Obj) c (h : list Obj) r o :
  (∀ x, obj_grows x (f x)) →
  h !! r = Some o → ∃ o', alter f c h !! r = Some o' ∧ obj_grows o o'.
Proof.
  intros Hf Ho. destruct (decide (c = r)) as [->|Hne].
  - rewrite list_lookup_alter_eq, Ho. simpl. eauto.
  - rewrite list_lookup_alter_ne by done. eauto using obj_grows_refl.
Qed.

Lemma handle_grows ev p p' r o :
  handle ev p = Ret p' → store p !! r = Some o →
  ∃ o', store p' !! r = Some o' ∧ obj_grows o o'.
Proof.
  intros Hev Ho. destruct ev as [t attrs | t | d | m]; simplify_eq/=.
  - assert (Ho' : (store p ++ [mkObj t (attrs_dict attrs) None None []]) !! r
                  = Some o).
    { rewrite lookup_app_l; [done | by eapply lookup_lt_Some]. }
    destruct (tag_stack p) as [|top rest]; [eauto using obj_grows_refl|].
    apply alter_grows; [|done].
    intros x. repeat split. simpl. by apply prefix_app_r.
  - unfold handle_endtag.
    destruct (endtag_loop _ _ _ _ _) as [[s c] a]. simpl.
    eauto using obj_grows_refl.
  - unfold handle_data. destruct (cur_tag p) as [c|];
      [|eauto using obj_grows_refl].
    destruct (after_end p); simpl; (apply alter_grows; [|done]);
      intros x; by repeat split.
Qed.

(** X9.  The callbacks never remove or rename anything: an element of the
    store is still there after any run that returns, with the same tag and
    attributes, and its children list has only grown at the end. *)
Theorem handle_all_store_grows evs p p' r o
    (Hrun : handle_all evs p = Ret p')
    (Ho : store p !! r = Some o) :
  ∃ o', store p' !! r = Some o' ∧
    o_tag o' = o_tag o ∧ o_attrib o' = o_attrib o ∧
    o_children o `prefix_of` o_children o'.
Proof.
  change (∃ o', store p' !! r = Some o' ∧ obj_grows o o').
  revert p o Hrun Ho. induction evs as [|ev evs IH]; intros p o Hrun Ho.
  - simplify_eq/=. eauto using obj_grows_refl.
  - simpl in Hrun. destruct (handle ev p) as [p1|e] eqn:Hev; [|done].
    simpl in Hrun.
    destruct (handle_grows ev p p1 r o Hev Ho) as (o1 & Ho1 & Hg1).
    destruct (IH p1 o1 Hrun Ho1) as (o' & Ho' & Hg').
    exists o'. split; [done|]. by eapply obj_grows_trans.
Qed.

(** ** [str.strip] *)

Lemma rstrip_idemp s : rstrip (rstrip s) = rstrip s.
Proof.
  induction s as [|c r IH]; [done|]. simpl.
  destruct (rstrip r) as [|c' r'] eqn:Hr.
  - destruct (isspace c) eqn:Hc; simpl; [done|]. by rewrite Hc.
  - simpl in *. by rewrite IH.
Qed.

Lemma lstrip_head s :
  match lstrip s with
  | EmptyString => True
  | String c _ => isspace c = false
  end.
Proof.
  induction s as [|c r IH]; [done|]. simpl.
  destruct (isspace c) eqn:Hc; [done|]. simpl. done.
Qed.

Lemma rstrip_head c r :
  isspace c = false → ∃ r', rstrip (String c r) = String c r'.
Proof.
  intros Hc. simpl. destruct (rstrip r); [rewrite Hc|]; by eexists.
Qed.

Lemma strip_head s :
  match strip s with
  | EmptyString => True
  | String c _ => isspace c = false
  end.
Proof.
  unfold strip. pose proof (lstrip_head s) as H.
  destruct (lstrip s) as [|c r]; [done|].
  destruct (rstrip_head c r H) as [r' ->]. done.
Qed.

Lemma lstrip_strip s : lstrip (strip s) = strip s.
Proof.
  pose proof (strip_head s) as H. destruct (strip s) as [|c r]; [done|].
  simpl. by rewrite H.
Qed.

Lemma strip_idempotent s : strip (strip s) = strip s.
Proof.
  unfold strip at 1. rewrite lstrip_strip. unfold strip.
  apply rstrip_idemp.
Qed.

(** ** [strip] of utils.py *)

Lemma stripped_list items :
  stripped (JList items) =
  forallb (λ x, negb (is_None x) && stripped x) items.
Proof. induction items as [|x r IH]; [done|]. simpl in *. by rewrite IH. Qed.

Lemma stripped_dict entries :
  stripped (JDict entries) = forallb (λ kv, stripped kv.2) entries.
Proof. induction entries as [|x r IH]; [done|]. simpl in *. by rewrite IH. Qed.

Lemma strip_any_is_stripped obj : stripped (strip_any obj) = true.
Proof.
  induction obj as [| b | z | f | s | items IH | entries IH]
    using json_nested_ind; try done.
  - simpl. destruct (String.eqb (strip s) "") eqn:He; [done|].
    simpl. rewrite He. simpl. rewrite strip_idempotent.
    apply String.eqb_refl.
  - cbn [strip_any]. rewrite stripped_list.
    induction IH as [|x r Hx _ IHr]; [done|]. simpl.
    destruct (is_None (strip_any x)) eqn:Hn; simpl; [done|].
    by rewrite Hn, Hx.
  - cbn [strip_any]. rewrite stripped_dict.
    induction IH as [|[k x] r Hx _ IHr]; [done|]. simpl in *.
    by rewrite Hx.
Qed.

Lemma stripped_fixed v : stripped v = true → strip_any v = v.
Proof.
  induction v as [| b | z | f | s | items IH | entries IH]
    using json_nested_ind; try done.
  - simpl. intros [Hne Heq]%andb_true_iff.
    apply String.eqb_eq in Heq. rewrite Heq.
    apply negb_true_iff in Hne. by rewrite Hne.
  - rewrite stripped_list. intros Hall. cbn [strip_any]. f_equal.
    induction IH as [|x r Hx _ IHr]; [done|]. simpl in Hall.
    apply andb_true_iff in Hall as [[Hn Hs]%andb_true_iff Hr].
    simpl. rewrite (Hx Hs), Hn. simpl. f_equal. by apply IHr.
  - rewrite stripped_dict. intros Hall. cbn [strip_any]. f_equal.
    induction IH as [|[k x] r Hx _ IHr]; [done|]. simpl in *.
    apply andb_true_iff in Hall as [Hs Hr].
    rewrite (Hx Hs). f_equal. by apply IHr.
Qed.

(** X15.  [strip] is idempotent. *)
Theorem strip_any_idempotent obj : strip_any (strip_any obj) = strip_any obj.
Proof. apply stripped_fixed, strip_any_is_stripped. Qed.

Lemma map_values_keys {A B : Type} (f : A → B) (l : list (string * A)) :
  (List.map (λ kv, (kv.1, f kv.2)) l).*1 = l.*1.
Proof.
  induction l as [|[k v] r IH]; [done|].
  change (k :: (List.map (λ kv, (kv.1, f kv.2)) r).*1 = k :: r.*1).
  by rewrite IH.
Qed.

(** X14.  In the result of [strip] no string value (an item of a list, a
    value of a dictionary, or the result itself) is empty or has whitespace
    at either end, and no list holds [None], at any depth.  The keys of a
    dictionary are not values: they are kept as they are, padded or empty,
    as on [{" k ": " v ", "": [" ", "x "]}], which becomes
    [{" k ": "v", "": ["x"]}]. *)
Theorem strip_any_stripped obj :
  stripped (strip_any obj) = true ∧
  (∀ entries, ∃ entries',
     strip_any (JDict entries) = JDict entries' ∧ entries'.*1 = entries.*1) ∧
  strip_any (JDict [(" k ", JStr " v "); ("", JList [JStr " "; JStr "x "])]) =
    JDict [(" k ", JStr "v"); ("", JList [JStr "x"])].
Proof.
  split; [apply strip_any_is_stripped|]. split; [|done].
  intros entries. eexists. split; [reflexivity|]. apply map_values_keys.
Qed.

(** X16.  [strip] keeps every key of a dictionary, in order, also when the
    value becomes [None]; of a list it drops the items that become [None],
    so the list never grows and holds no [None]. *)
Theorem strip_any_keeps_keys entries items :
  (∃ entries',
     strip_any (JDict entries) = JDict entries' ∧ entries'.*1 = entries.*1) ∧
  (∃ items',
     strip_any (JList items) = JList items' ∧ length items' ≤ length items ∧
     Forall (λ x, x ≠ JNull) items').
Proof.
  split.
  - eexists. split; [reflexivity|]. apply map_values_keys.
  - eexists. split; [reflexivity|]. split.
    + etrans; [apply List.filter_length_le | by rewrite List.length_map].
    + apply Forall_forall. intros x Hx. apply list_elem_of_In in Hx.
      apply filter_In in Hx as [_ Hx]. by destruct x.
Qed.

(** ** [re_sub] *)

Section ReSubProps.

Variable re_sub_str : string -> string -> string -> string.

(** X17.  When [re.sub] leaves every string of a value unchanged, [re_sub]
    returns the value unchanged; dictionary keys are never rewritten. *)
Theorem re_sub_unchanged obj pattern repl
    (Hsame : ∀ s, s ∈ strings_of obj → re_sub_str pattern repl s = s) :
  re_sub re_sub_str obj pattern repl = obj.
Proof.
  induction obj as [| b | z | f | s | items IH | entries IH]
    using json_nested_ind; try done.
  - simpl. f_equal. apply Hsame. simpl. by left.
  - cbn [re_sub]. f_equal.
    induction IH as [|x r Hx _ IHr]; [done|]. simpl in *.
    rewrite Hx, IHr; [done | |].
    + intros s Hs. apply Hsame. apply elem_of_app. by right.
    + intros s Hs. apply Hsame. apply elem_of_app. by left.
  - cbn [re_sub]. f_equal.
    induction IH as [|[k x] r Hx _ IHr]; [done|]. simpl in *.
    rewrite Hx, IHr; [done | |].
    + intros s Hs. apply Hsame. apply elem_of_app. by right.
    + intros s Hs. apply Hsame. apply elem_of_app. by left.
Qed.

End ReSubProps.

(** ** [str_to_etree] *)

Section StrToEtreeMore.

Variable str_float : spec_float -> string.
Variable json_loads : string -> Outcome json.
Variable tokenize : string -> list Event.

Local Abbreviation s2e := (str_to_etree str_float json_loads tokenize).

(** X12.  [str_to_etree] gives the same outcome on a string and on the string
    stripped of surrounding whitespace. *)
Theorem str_to_etree_strip_invariant s : s2e (strip s) = s2e s.
Proof. unfold str_to_etree. by rewrite strip_idempotent. Qed.

(** X13.  On an input that starts with [<] after stripping and whose callbacks
    end with those of a well-nested element, [str_to_etree] returns the
    tree of that element. *)
Theorem str_to_etree_well_nested s evs p m
    (Hlt : startswith (strip s) "<" = true)
    (Htok : tokenize (strip s) = evs ++ events_of m)
    (Hrun : handle_all evs init = Ret p) :
  s2e s = Ret (Some (tree_of m)).
Proof.
  rewrite str_to_etree_markup by done. rewrite Htok.
  by eapply parse_events_markup_after.
Qed.

End StrToEtreeMore.

(** ** [dict_update] *)

Section DictUpdateProps.

Variable py_eq : json -> json -> bool.
Local Abbreviation du := (dict_update py_eq).
Local Abbreviation uv := (update_value py_eq).
Local Abbreviation ext := (extend_new py_eq).
Local Abbreviation has := (contains py_eq).

Lemma dict_update_nil d1 : du d1 [] = d1.
Proof. reflexivity. Qed.

Lemma dict_update_cons d1 k x r :
  du d1 ((k, x) :: r) = du (dict_set d1 k (uv (dict_get d1 k) x)) r.
Proof. reflexivity. Qed.

Lemma update_value_dict e1 e2 :
  uv (Some (JDict e1)) (JDict e2) = JDict (du e1 e2).
Proof. reflexivity. Qed.

Lemma dict_set_keys d k v :
  (dict_set d k v).*1 = if decide (k ∈ d.*1) then d.*1 else d.*1 ++ [k].
Proof.
  induction d as [|[k' v'] r IH].
  - rewrite decide_False by apply not_elem_of_nil. done.
  - cbn [dict_set]. destruct (String.eqb k' k) eqn:Hk.
    + apply String.eqb_eq in Hk as ->.
      rewrite decide_True by (rewrite fmap_cons; by left). reflexivity.
    + apply String.eqb_neq in Hk. rewrite fmap_cons, IH.
      destruct (decide (k ∈ r.*1)) as [Hin|Hnin].
      * rewrite decide_True by (rewrite fmap_cons; by right). reflexivity.
      * rewrite decide_False; [reflexivity|].
        rewrite fmap_cons. intros [?|?]%elem_of_cons; simpl in *; congruence.
Qed.



(** X18.  [dict_update] keeps the keys of [d1] in their order and adds the
    new keys of [d2] after them: the keys of the result are those of [d1]
    and [d2], and no key is repeated when none was in [d1]. *)
Theorem dict_update_keys d1 d2 :
  d1.*1 `prefix_of` (dict_update py_eq d1 d2).*1 ∧
  (∀ k, k ∈ (dict_update py_eq d1 d2).*1 ↔ k ∈ d1.*1 ∨ k ∈ d2.*1) ∧
  (NoDup d1.*1 → NoDup (dict_update py_eq d1 d2).*1).
Proof.
  revert d1. induction d2 as [|[k x] r IH]; intros d1.
  - rewrite dict_update_nil. split; [done|]. split; [|done].
    intros k. rewrite elem_of_nil. tauto.
  - rewrite dict_update_cons.
    destruct (IH (dict_set d1 k (uv (dict_get d1 k) x))) as (Hp & Hin & Hnd).
    rewrite dict_set_keys in Hp, Hin, Hnd.
    destruct (decide (k ∈ d1.*1)) as [Hk|Hk].
    + split; [done|]. split; [|done].
      intros k0. rewrite Hin. simpl. rewrite elem_of_cons.
      split; [tauto|]. intros [?|[->|?]]; tauto.
    + split; [|split].
      * etrans; [|apply Hp]. by apply prefix_app_r.
      * intros k0. rewrite Hin. simpl.
        rewrite elem_of_app, list_elem_of_singleton, elem_of_cons. tauto.
      * intros Hnd1. apply Hnd. apply NoDup_app. split; [done|].
        split; [|apply NoDup_singleton].
        intros k0 Hk0 ->%list_elem_of_singleton. done.
Qed.


Lemma contains_prefix a a' x : a `prefix_of` a' → has a x = true → has a' x = true.
Proof.
  intros [b ->] H. unfold contains in *. rewrite existsb_app, H. done.
Qed.

Lemma extend_new_prefix l2 : ∀ l1, l1 `prefix_of` ext l1 l2.
Proof.
  induction l2 as [|x r IH]; intros l1; simpl; [done|].
  etrans; [|apply IH]. destruct (has l1 x); [done | by apply prefix_app_r].
Qed.

(** X20.  The list branch of [dict_update] keeps the old list as a prefix and
    appends only items of the new list; an appended item was not in the list
    as it stood before it, so an item repeated in the new list is appended
    once; with a reflexive [==], every item of the new list is in the
    result. *)
Theorem extend_new_spec l1 l2 :
  l1 `prefix_of` extend_new py_eq l1 l2 ∧
  (∀ x, x ∈ extend_new py_eq l1 l2 → x ∈ l1 ∨ x ∈ l2) ∧
  ((∀ x, py_eq x x = true) →
   ∀ x, x ∈ l2 → contains py_eq (extend_new py_eq l1 l2) x = true) ∧
  (∀ a x b,
     extend_new py_eq l1 l2 = a ++ x :: b → length l1 ≤ length a →
     contains py_eq a x = false).
Proof.
  split; [apply extend_new_prefix|]. split; [|split].
  - revert l1. induction l2 as [|y r IH]; intros l1 x Hx; simpl in Hx.
    + by left.
    + apply IH in Hx as [Hx | Hx]; [|right; by right].
      destruct (has l1 y); [by left|].
      apply elem_of_app in Hx as [Hx | ->%list_elem_of_singleton];
        [by left | right; by left].
  - intros Hrefl. revert l1.
    induction l2 as [|y r IH]; intros l1 x Hx; [by apply elem_of_nil in Hx|].
    simpl. apply elem_of_cons in Hx as [-> | Hx]; [|by apply IH].
    eapply contains_prefix; [apply extend_new_prefix|].
    destruct (has l1 y) eqn:Hy; [done|].
    unfold contains. rewrite existsb_app. simpl.
    by rewrite Hrefl, orb_true_r.
  - revert l1. induction l2 as [|y r IH]; intros l1 a x b Heq Hlen; simpl in Heq.
    + subst l1. rewrite length_app in Hlen. simpl in Hlen. lia.
    + destruct (has l1 y) eqn:Hy; [by eapply IH|].
      destruct (decide (length l1 = length a)) as [Hl|Hl].
      * destruct (extend_new_prefix r (l1 ++ [y])) as [c Hc].
        rewrite Heq, <- app_assoc in Hc. simpl in Hc.
        apply app_inj_1 in Hc as [-> [= -> _]]; [done | done].
      * eapply IH; [done|]. rewrite length_app. simpl. lia.
Qed.

Lemma dict_set_fresh d k v : k ∉ d.*1 → dict_set d k v = d ++ [(k, v)].
Proof.
  induction d as [|[k' v'] r IH]; intros Hk; [done|].
  rewrite fmap_cons in Hk. apply not_elem_of_cons in Hk as [Hne Hk].
  cbn [dict_set]. apply not_eq_sym, String.eqb_neq in Hne. simpl in Hne.
  rewrite Hne, IH by done. done.
Qed.

Lemma dict_get_fresh d k : k ∉ d.*1 → dict_get d k = None.
Proof.
  unfold dict_get. induction d as [|[k' v'] r IH]; intros Hk; [done|].
  rewrite fmap_cons in Hk. apply not_elem_of_cons in Hk as [Hne Hk].
  apply not_eq_sym, String.eqb_neq in Hne. simpl in *. rewrite Hne.
  by apply IH.
Qed.

(** X21.  When [d2] shares no key with [d1], [dict_update] appends the
    entries of [d2] to [d1], unchanged and in order. *)
Theorem dict_update_disjoint d1 d2
    (Hnd : NoDup d2.*1)
    (Hdis : ∀ k, k ∈ d2.*1 → k ∉ d1.*1) :
  dict_update py_eq d1 d2 = d1 ++ d2.
Proof.
  revert d1 Hdis. induction d2 as [|[k x] r IH]; intros d1 Hdis.
  - by rewrite app_nil_r.
  - rewrite fmap_cons in Hnd. apply NoDup_cons in Hnd as [Hk Hnd].
    assert (Hk1 : k ∉ d1.*1) by (apply Hdis; rewrite fmap_cons; by left).
    rewrite dict_update_cons, dict_get_fresh, dict_set_fresh by done.
    assert (Hx : uv None x = x) by (by destruct x).
    rewrite Hx, IH; [by rewrite <- app_assoc | done |].
    intros k0 Hk0. rewrite fmap_app, elem_of_app. simpl.
    intros [Hin | ->%list_elem_of_singleton]; [|done].
    apply (Hdis k0); [rewrite fmap_cons; by right | done].
Qed.

End DictUpdateProps.

(** ** Instances *)

Lemma json_tree_no_attrib_no_tail_witness :
  let e := mkElement "k" ∅ (Some "True") None [] in
  attrib e = ∅ ∧ tail e = None.
Proof.
  apply (json_tree_no_attrib_no_tail (λ _, "")
           (JDict [("k", JBool true)]) "root").
  vm_compute. right. left.
Defined.

Lemma attrs_dict_lookup_witness :
  attrs_dict ([("x", Some "1")] ++ ("x", None) :: [("y", Some "2")]) !! "x"
  = Some "".
Proof.
  apply (proj1 attrs_dict_lookup [("x", Some "1")] "x" None
           [("y", Some "2")]).
  intros H%list_elem_of_singleton. discriminate.
Defined.

Lemma handle_starttag_effect_witness :
  let p := handle_starttag "a" [] init in
  store (handle_starttag "b" [] p) !! 0 = Some (mkObj "a" ∅ None None [1]).
Proof.
  exact (proj2 (proj2 (proj2 (proj2 (proj2
           (handle_starttag_effect "b" [] (handle_starttag "a" [] init)
              (handle_starttag_ok "a" [] init init_ok))))))
           0 (mkObj "a" ∅ None None []) eq_refl).
Defined.

Lemma handle_endtag_closes_through_witness :
  let p := handle_starttag "b" [] (handle_starttag "a" [] init) in
  handle (EndTag "a") p = Ret (mkParser (store p) [] (Some 0) true).
Proof.
  apply (handle_endtag_closes_through "a"
           (handle_starttag "b" [] (handle_starttag "a" [] init))
           [1] 0 [] (mkObj "a" ∅ None None [1])).
  - reflexivity.
  - intros x ox ->%list_elem_of_singleton [= <-]. discriminate.
  - reflexivity.
  - reflexivity.
Defined.

Lemma parse_events_error_raises_witness :
  parse_events ([StartTag "a" []; Data "x"] ++ Error "bad" :: [EndTag "a"]) =
  Raise ResultParseError.
Proof.
  exact (proj1 (proj2 (parse_events_error_raises
                         [StartTag "a" []; Data "x"] "bad" [EndTag "a"]))).
Defined.

Lemma handle_all_store_grows_witness :
  ∃ o', store (handle_starttag "b" [] (handle_starttag "a" [] init)) !! 0
        = Some o' ∧
    o_tag o' = "a" ∧ o_attrib o' = ∅ ∧ [] `prefix_of` o_children o'.
Proof.
  exact (handle_all_store_grows [StartTag "b" []]
           (handle_starttag "a" [] init) _ 0 (mkObj "a" ∅ None None [])
           eq_refl eq_refl).
Defined.

Lemma parse_events_returns_last_element_witness :
  parse_events
    ([StartTag "html" []; StartTag "body" []] ++
     events_of (Node "p" [] (Some " x ") [] None)) =
  Ret (Some (tree_of (Node "p" [] (Some " x ") [] None))).
Proof.
  exact (parse_events_returns_last_element
           [StartTag "html" []; StartTag "body" []] _
           (Node "p" [] (Some " x ") [] None) eq_refl).
Defined.

Lemma str_to_etree_well_nested_witness :
  str_to_etree (λ _, "") (λ _, Raise JSONDecodeError)
    (λ _, [StartTag "a" []] ++ events_of (Node "b" [] None [] None))
    " <a><b></b> " =
  Ret (Some (tree_of (Node "b" [] None [] None))).
Proof.
  exact (str_to_etree_well_nested (λ _, "") (λ _, Raise JSONDecodeError)
           (λ _, [StartTag "a" []] ++ events_of (Node "b" [] None [] None))
           " <a><b></b> " [StartTag "a" []] _ (Node "b" [] None [] None)
           eq_refl eq_refl eq_refl).
Defined.

Lemma re_sub_unchanged_witness :
  let sub := λ (_ _ s : string), if String.eqb s "x" then "y" else s in
  re_sub sub (JList [JStr "a"; JDict [("x", JInt 1)]]) "x" "y" =
  JList [JStr "a"; JDict [("x", JInt 1)]].
Proof.
  apply (re_sub_unchanged
           (λ (_ _ s : string), if String.eqb s "x" then "y" else s)
           (JList [JStr "a"; JDict [("x", JInt 1)]]) "x" "y").
  intros s ->%list_elem_of_singleton. reflexivity.
Defined.


Lemma extend_new_spec_witness :
  let int_eq := λ a b, match a, b with
                       | JInt x, JInt y => Z.eqb x y
                       | _, _ => false
                       end in
  extend_new int_eq [JInt 1] [JInt 2; JInt 2] = [JInt 1; JInt 2] ∧
  contains int_eq [JInt 1] (JInt 2) = false.
Proof.
  split; [reflexivity|].
  apply (proj2 (proj2 (proj2 (extend_new_spec
           (λ a b, match a, b with
                   | JInt x, JInt y => Z.eqb x y
                   | _, _ => false
                   end) [JInt 1] [JInt 2; JInt 2])))
           [JInt 1] (JInt 2) []); [reflexivity | simpl; lia].
Defined.

Lemma dict_update_disjoint_witness :
  dict_update (λ _ _, false) [("a", JInt 1)] [("b", JNull); ("c", JList [])]
  = [("a", JInt 1); ("b", JNull); ("c", JList [])].
Proof.
  apply (dict_update_disjoint (λ _ _, false) [("a", JInt 1)]
           [("b", JNull); ("c", JList [])]).
  - apply NoDup_cons. split; [|apply NoDup_singleton].
    intros H%list_elem_of_singleton. discriminate.
  - intros k Hk ->%list_elem_of_singleton.
    apply elem_of_cons in Hk as [Hk | Hk%list_elem_of_singleton];
      discriminate.
Defined.
